(** * FingerprintJS: identity-hashing pipeline

    A shallow embedding of the measurement-orchestration and hashing core of
    FingerprintJS v5.0.1: the Murmur3 x64-128 hasher written over pairs of
    32-bit words, the canonicalizer, the source loader, the batch scheduler,
    the confidence estimator and the lazily computed result object. *)

From Stdlib Require Import ZArith String Ascii QArith Lia.
From stdpp Require Import base list gmap sorting.

(** ** JavaScript numbers and bitwise operators

    Every number handled by the hasher is an integer well inside the range in
    which IEEE doubles are exact (the largest intermediate, in [x64Multiply],
    is below 2^35), so a number is a [Z].  The bitwise operators convert their operands with ToInt32 or
    ToUint32 and mask the shift count to five bits. *)

Section JSNumbers.
Local Open Scope Z_scope.

Definition ToInt32 (x : Z) : Z := (x + 2 ^ 31) mod 2 ^ 32 - 2 ^ 31.
Definition ToUint32 (x : Z) : Z := x mod 2 ^ 32.

(** [a | b], [a & b], [a ^ b] *)
Definition js_or (a b : Z) : Z := Z.lor (ToInt32 a) (ToInt32 b).
Definition js_and (a b : Z) : Z := Z.land (ToInt32 a) (ToInt32 b).
Definition js_xor (a b : Z) : Z := Z.lxor (ToInt32 a) (ToInt32 b).
(** [a << n] *)
Definition js_shl (a n : Z) : Z := ToInt32 (Z.shiftl (ToInt32 a) (ToUint32 n mod 32)).
(** [a >>> n] *)
Definition js_shru (a n : Z) : Z := Z.shiftr (ToUint32 a) (ToUint32 n mod 32).

End JSNumbers.

(** ** 64-bit values as tuples of two 32-bit values

    The source keeps a 64-bit value in a two-element array [m] with [m[0]]
    the high word and [m[1]] the low word, and every helper writes its result
    back into its first argument.  Here a helper returns the updated tuple. *)

Record X64 : Type := mk64 { w0 : Z; w1 : Z }.

Section X64Ops.
Local Open Scope Z_scope.

Definition x64Add (m n : X64) : X64 :=
  let m0 := js_shru (w0 m) 16 in let m1 := js_and (w0 m) 0xffff in
  let m2 := js_shru (w1 m) 16 in let m3 := js_and (w1 m) 0xffff in
  let n0 := js_shru (w0 n) 16 in let n1 := js_and (w0 n) 0xffff in
  let n2 := js_shru (w1 n) 16 in let n3 := js_and (w1 n) 0xffff in
  let o0 := 0 in let o1 := 0 in let o2 := 0 in let o3 := 0 in
  let o3 := o3 + (m3 + n3) in
  let o2 := o2 + js_shru o3 16 in
  let o3 := js_and o3 0xffff in
  let o2 := o2 + (m2 + n2) in
  let o1 := o1 + js_shru o2 16 in
  let o2 := js_and o2 0xffff in
  let o1 := o1 + (m1 + n1) in
  let o0 := o0 + js_shru o1 16 in
  let o1 := js_and o1 0xffff in
  let o0 := o0 + (m0 + n0) in
  let o0 := js_and o0 0xffff in
  {| w0 := js_or (js_shl o0 16) o1; w1 := js_or (js_shl o2 16) o3 |}.

Definition x64Multiply (m n : X64) : X64 :=
  let m0 := js_shru (w0 m) 16 in let m1 := js_and (w0 m) 0xffff in
  let m2 := js_shru (w1 m) 16 in let m3 := js_and (w1 m) 0xffff in
  let n0 := js_shru (w0 n) 16 in let n1 := js_and (w0 n) 0xffff in
  let n2 := js_shru (w1 n) 16 in let n3 := js_and (w1 n) 0xffff in
  let o0 := 0 in let o1 := 0 in let o2 := 0 in let o3 := 0 in
  let o3 := o3 + m3 * n3 in
  let o2 := o2 + js_shru o3 16 in
  let o3 := js_and o3 0xffff in
  let o2 := o2 + m2 * n3 in
  let o1 := o1 + js_shru o2 16 in
  let o2 := js_and o2 0xffff in
  let o2 := o2 + m3 * n2 in
  let o1 := o1 + js_shru o2 16 in
  let o2 := js_and o2 0xffff in
  let o1 := o1 + m1 * n3 in
  let o0 := o0 + js_shru o1 16 in
  let o1 := js_and o1 0xffff in
  let o1 := o1 + m2 * n2 in
  let o0 := o0 + js_shru o1 16 in
  let o1 := js_and o1 0xffff in
  let o1 := o1 + m3 * n1 in
  let o0 := o0 + js_shru o1 16 in
  let o1 := js_and o1 0xffff in
  let o0 := o0 + (m0 * n3 + m1 * n2 + m2 * n1 + m3 * n0) in
  let o0 := js_and o0 0xffff in
  {| w0 := js_or (js_shl o0 16) o1; w1 := js_or (js_shl o2 16) o3 |}.

(** [bits %= 64] keeps the sign of [bits], as [Z.rem] does. *)
Definition x64Rotl (m : X64) (bits : Z) : X64 :=
  let m0 := w0 m in
  let bits := Z.rem bits 64 in
  if bits =? 32 then {| w0 := w1 m; w1 := m0 |}
  else if bits <? 32 then
    {| w0 := js_or (js_shl m0 bits) (js_shru (w1 m) (32 - bits));
       w1 := js_or (js_shl (w1 m) bits) (js_shru m0 (32 - bits)) |}
  else
    let bits := bits - 32 in
    {| w0 := js_or (js_shl (w1 m) bits) (js_shru m0 (32 - bits));
       w1 := js_or (js_shl m0 bits) (js_shru (w1 m) (32 - bits)) |}.

Definition x64LeftShift (m : X64) (bits : Z) : X64 :=
  let bits := Z.rem bits 64 in
  if bits =? 0 then m
  else if bits <? 32 then
    {| w0 := js_shru (w1 m) (32 - bits); w1 := js_shl (w1 m) bits |}
  else
    {| w0 := js_shl (w1 m) (bits - 32); w1 := 0 |}.

Definition x64Xor (m n : X64) : X64 :=
  {| w0 := js_xor (w0 m) (w0 n); w1 := js_xor (w1 m) (w1 n) |}.

Definition F1 : X64 := mk64 0xff51afd7 0xed558ccd.
Definition F2 : X64 := mk64 0xc4ceb9fe 0x1a85ec53.

Definition x64Fmix (h : X64) : X64 :=
  let shifted := mk64 0 (js_shru (w0 h) 1) in
  let h := x64Xor h shifted in
  let h := x64Multiply h F1 in
  let shifted := mk64 (w0 shifted) (js_shru (w0 h) 1) in
  let h := x64Xor h shifted in
  let h := x64Multiply h F2 in
  let shifted := mk64 (w0 shifted) (js_shru (w0 h) 1) in
  let h := x64Xor h shifted in
  h.

Definition C1 : X64 := mk64 0x87c37b91 0x114253d5.
Definition C2 : X64 := mk64 0x4cf5ad43 0x2745937f.
Definition M_1 : X64 := mk64 0 5.
Definition N1 : X64 := mk64 0 0x52dce729.
Definition N2 : X64 := mk64 0 0x38495ab5.

(** The unsigned 64-bit value a tuple stands for. *)
Definition U64 (p : X64) : Z := ToUint32 (w0 p) * 2 ^ 32 + ToUint32 (w1 p).

End X64Ops.

(** ** Strings and byte arrays

    A JavaScript string is a sequence of UTF-16 code units.  [str] turns a
    literal into one. *)

Definition jsstring : Type := list N.

Definition str (s : string) : jsstring := N_of_ascii <$> list_ascii_of_string s.

(** [TextEncoder.prototype.encode] is a platform function: it decodes the
    UTF-16 code units to scalar values, replacing every unpaired surrogate by
    U+FFFD, and writes each scalar value in UTF-8. *)

Section UTF8.
Local Open Scope N_scope.

Definition utf8_of_scalar (cp : N) : list Z :=
  Z.of_N <$>
    (if cp <? 0x80 then [cp]
     else if cp <? 0x800 then [0xC0 + cp / 64; 0x80 + cp mod 64]
     else if cp <? 0x10000 then
       [0xE0 + cp / 4096; 0x80 + (cp / 64) mod 64; 0x80 + cp mod 64]
     else
       [0xF0 + (cp / 262144) mod 8; 0x80 + (cp / 4096) mod 64;
        0x80 + (cp / 64) mod 64; 0x80 + cp mod 64]).

Definition is_lead_surrogate (c : N) : bool := (0xD800 <=? c) && (c <=? 0xDBFF).
Definition is_trail_surrogate (c : N) : bool := (0xDC00 <=? c) && (c <=? 0xDFFF).

Fixpoint TextEncoder_encode (s : jsstring) : list Z :=
  match s with
  | [] => []
  | c :: rest =>
      if is_lead_surrogate c then
        match rest with
        | d :: rest' =>
            if is_trail_surrogate d then
              utf8_of_scalar (0x10000 + (c - 0xD800) * 1024 + (d - 0xDC00))
                ++ TextEncoder_encode rest'
            else utf8_of_scalar 0xFFFD ++ TextEncoder_encode rest
        | [] => utf8_of_scalar 0xFFFD
        end
      else if is_trail_surrogate c then utf8_of_scalar 0xFFFD ++ TextEncoder_encode rest
      else utf8_of_scalar c ++ TextEncoder_encode rest
  end.

(** The loop of [getUTF8Bytes]: [result] is the [Uint8Array] being filled,
    [i] the loop index; a code above 127 abandons the loop for the encoder. *)
Fixpoint getUTF8Bytes_loop (fuel : nat) (input : jsstring) (i : nat)
    (result : list Z) : list Z :=
  match fuel with
  | O => result
  | S fuel =>
      match input !! i with
      | None => result
      | Some charCode =>
          if 127 <? charCode then TextEncoder_encode input
          else getUTF8Bytes_loop fuel input (S i) (<[i := Z.of_N charCode]> result)
      end
  end.

Definition getUTF8Bytes (input : jsstring) : list Z :=
  getUTF8Bytes_loop (length input) input 0 (replicate (length input) 0%Z).

End UTF8.

(** ** x64hash128 *)

Section Hash.
Local Open Scope Z_scope.

(** [key[i]] on a [Uint8Array]; a read past the end gives [undefined], which
    every operator applied to it in [x64hash128] converts to 0. *)
Definition key_at (key : list Z) (i : Z) : Z := default 0 (key !! Z.to_nat i).

(** Every element of a byte array is a byte. *)
Definition bytes_ok (key : list Z) : Prop := Forall (fun b => 0 <= b < 256) key.

Fixpoint x64hash128_loop (fuel : nat) (key : list Z) (bytes i : Z)
    (h1 h2 : X64) : Z * X64 * X64 :=
  match fuel with
  | O => (i, h1, h2)
  | S fuel =>
      if i <? bytes then
        let k1 :=
          mk64 (js_or (js_or (js_or (key_at key (i + 4)) (js_shl (key_at key (i + 5)) 8))
                             (js_shl (key_at key (i + 6)) 16))
                      (js_shl (key_at key (i + 7)) 24))
               (js_or (js_or (js_or (key_at key i) (js_shl (key_at key (i + 1)) 8))
                             (js_shl (key_at key (i + 2)) 16))
                      (js_shl (key_at key (i + 3)) 24)) in
        let k2 :=
          mk64 (js_or (js_or (js_or (key_at key (i + 12)) (js_shl (key_at key (i + 13)) 8))
                             (js_shl (key_at key (i + 14)) 16))
                      (js_shl (key_at key (i + 15)) 24))
               (js_or (js_or (js_or (key_at key (i + 8)) (js_shl (key_at key (i + 9)) 8))
                             (js_shl (key_at key (i + 10)) 16))
                      (js_shl (key_at key (i + 11)) 24)) in
        let k1 := x64Multiply k1 C1 in
        let k1 := x64Rotl k1 31 in
        let k1 := x64Multiply k1 C2 in
        let h1 := x64Xor h1 k1 in
        let h1 := x64Rotl h1 27 in
        let h1 := x64Add h1 h2 in
        let h1 := x64Multiply h1 M_1 in
        let h1 := x64Add h1 N1 in
        let k2 := x64Multiply k2 C2 in
        let k2 := x64Rotl k2 33 in
        let k2 := x64Multiply k2 C1 in
        let h2 := x64Xor h2 k2 in
        let h2 := x64Rotl h2 31 in
        let h2 := x64Add h2 h1 in
        let h2 := x64Multiply h2 M_1 in
        let h2 := x64Add h2 N2 in
        x64hash128_loop fuel key bytes (i + 16) h1 h2
      else (i, h1, h2)
  end.

(** One [case] of the tail [switch] that shifts: [val[1] = b;
    x64LeftShift(val, bits); x64Xor(k, val)].  A case runs when its label is
    at most [remainder], because every case falls through to the next. *)
Definition tail_case (label remainder : Z) (k val : X64) (b bits : Z) : X64 * X64 :=
  if label <=? remainder then
    let val := mk64 (w0 val) b in
    let val := x64LeftShift val bits in
    (x64Xor k val, val)
  else (k, val).

Definition x64hash128_tail (remainder : Z) (key : list Z) (i : Z)
    (h1 h2 : X64) : X64 * X64 :=
  let k1 := mk64 0 0 in
  let k2 := mk64 0 0 in
  let val := mk64 0 0 in
  let '(k2, val) := tail_case 15 remainder k2 val (key_at key (i + 14)) 48 in
  let '(k2, val) := tail_case 14 remainder k2 val (key_at key (i + 13)) 40 in
  let '(k2, val) := tail_case 13 remainder k2 val (key_at key (i + 12)) 32 in
  let '(k2, val) := tail_case 12 remainder k2 val (key_at key (i + 11)) 24 in
  let '(k2, val) := tail_case 11 remainder k2 val (key_at key (i + 10)) 16 in
  let '(k2, val) := tail_case 10 remainder k2 val (key_at key (i + 9)) 8 in
  let '(k2, val, h2) :=
    if 9 <=? remainder then
      let val := mk64 (w0 val) (key_at key (i + 8)) in
      let k2 := x64Xor k2 val in
      let k2 := x64Multiply k2 C2 in
      let k2 := x64Rotl k2 33 in
      let k2 := x64Multiply k2 C1 in
      (k2, val, x64Xor h2 k2)
    else (k2, val, h2) in
  let '(k1, val) := tail_case 8 remainder k1 val (key_at key (i + 7)) 56 in
  let '(k1, val) := tail_case 7 remainder k1 val (key_at key (i + 6)) 48 in
  let '(k1, val) := tail_case 6 remainder k1 val (key_at key (i + 5)) 40 in
  let '(k1, val) := tail_case 5 remainder k1 val (key_at key (i + 4)) 32 in
  let '(k1, val) := tail_case 4 remainder k1 val (key_at key (i + 3)) 24 in
  let '(k1, val) := tail_case 3 remainder k1 val (key_at key (i + 2)) 16 in
  let '(k1, val) := tail_case 2 remainder k1 val (key_at key (i + 1)) 8 in
  let '(k1, val, h1) :=
    if 1 <=? remainder then
      let val := mk64 (w0 val) (key_at key i) in
      let k1 := x64Xor k1 val in
      let k1 := x64Multiply k1 C1 in
      let k1 := x64Rotl k1 31 in
      let k1 := x64Multiply k1 C2 in
      (k1, val, x64Xor h1 k1)
    else (k1, val, h1) in
  (h1, h2).

(** [Number.prototype.toString(16)] on a non-negative integer: the
    hexadecimal digits, lowercase, without leading zeros. *)
Definition hexDigit (d : Z) : N := Z.to_N (if d <? 10 then 48 + d else 87 + d).

Fixpoint toString16_digits (fuel : nat) (n : Z) (acc : jsstring) : jsstring :=
  match fuel with
  | O => acc
  | S fuel =>
      let acc := hexDigit (n mod 16) :: acc in
      if n / 16 =? 0 then acc else toString16_digits fuel (n / 16) acc
  end.

Definition Number_toString16 (n : Z) : jsstring :=
  toString16_digits (S (Z.to_nat (Z.log2 n))) n [].

(** [s.slice(-k)]: the last [k] code units of [s], all of [s] when it is shorter. *)
Definition String_slice_last (k : nat) (s : jsstring) : jsstring :=
  drop (length s - k) s.

(** [('00000000' + (w >>> 0).toString(16)).slice(-8)] *)
Definition hex8 (w : Z) : jsstring :=
  String_slice_last 8 (str "00000000" ++ Number_toString16 (js_shru w 0)).

(** The state of [h1] and [h2] when the string is rendered. *)
Definition x64hash128_words (key : list Z) (seed : Z) : X64 * X64 :=
  let length_ := mk64 0 (Z.of_nat (length key)) in
  let remainder := w1 length_ mod 16 in
  let bytes := w1 length_ - remainder in
  let h1 := mk64 0 seed in
  let h2 := mk64 0 seed in
  let '(i, h1, h2) := x64hash128_loop (length key) key bytes 0 h1 h2 in
  let '(h1, h2) := x64hash128_tail remainder key i h1 h2 in
  let h1 := x64Xor h1 length_ in
  let h2 := x64Xor h2 length_ in
  let h1 := x64Add h1 h2 in
  let h2 := x64Add h2 h1 in
  let h1 := x64Fmix h1 in
  let h2 := x64Fmix h2 in
  let h1 := x64Add h1 h2 in
  let h2 := x64Add h2 h1 in
  (h1, h2).

(** [seed] is [None] when the caller leaves the argument out; [seed || 0]
    then gives 0 (as it does for a seed of 0). *)
Definition x64hash128 (input : jsstring) (seed : option Z) : jsstring :=
  let key := getUTF8Bytes input in
  let seed := match seed with Some s => if s =? 0 then 0 else s | None => 0 end in
  let '(h1, h2) := x64hash128_words key seed in
  hex8 (w0 h1) ++ hex8 (w1 h1) ++ hex8 (w0 h2) ++ hex8 (w1 h2).

End Hash.

(** ** The reference MurmurHash3 x64-128

    Written from the reference algorithm over unsigned 64-bit integers; it is
    what the tuple-based code above is compared with. *)

Module Murmur3Ref.
Section Ref.
Local Open Scope Z_scope.

Definition wrap64 (x : Z) : Z := x mod 2 ^ 64.

Definition c1 : Z := 0x87c37b91114253d5.
Definition c2 : Z := 0x4cf5ad432745937f.

Definition ROTL64 (x r : Z) : Z :=
  Z.lor (wrap64 (Z.shiftl x r)) (Z.shiftr x (64 - r)).

Definition fmix64 (k : Z) : Z :=
  let k := Z.lxor k (Z.shiftr k 33) in
  let k := wrap64 (k * 0xff51afd7ed558ccd) in
  let k := Z.lxor k (Z.shiftr k 33) in
  let k := wrap64 (k * 0xc4ceb9fe1a85ec53) in
  let k := Z.lxor k (Z.shiftr k 33) in
  k.

Definition byte_at (data : list Z) (i : nat) : Z := default 0 (data !! i).

(** [getblock64(blocks, j)]: the little-endian 64-bit word at byte offset [8 * j]. *)
Definition getblock64 (data : list Z) (j : nat) : Z :=
  let o := (8 * j)%nat in
  byte_at data o + byte_at data (o + 1) * 2 ^ 8 + byte_at data (o + 2) * 2 ^ 16
  + byte_at data (o + 3) * 2 ^ 24 + byte_at data (o + 4) * 2 ^ 32
  + byte_at data (o + 5) * 2 ^ 40 + byte_at data (o + 6) * 2 ^ 48
  + byte_at data (o + 7) * 2 ^ 56.

Definition mix_k1 (k1 : Z) : Z :=
  let k1 := wrap64 (k1 * c1) in
  let k1 := ROTL64 k1 31 in
  wrap64 (k1 * c2).

Definition mix_k2 (k2 : Z) : Z :=
  let k2 := wrap64 (k2 * c2) in
  let k2 := ROTL64 k2 33 in
  wrap64 (k2 * c1).

(** The body: blocks [i], [i + 1], ..., [i + n - 1]. *)
Fixpoint body (n : nat) (data : list Z) (i : nat) (h1 h2 : Z) : Z * Z :=
  match n with
  | O => (h1, h2)
  | S n =>
      let k1 := getblock64 data (i * 2 + 0) in
      let k2 := getblock64 data (i * 2 + 1) in
      let h1 := Z.lxor h1 (mix_k1 k1) in
      let h1 := ROTL64 h1 27 in
      let h1 := wrap64 (h1 + h2) in
      let h1 := wrap64 (h1 * 5 + 0x52dce729) in
      let h2 := Z.lxor h2 (mix_k2 k2) in
      let h2 := ROTL64 h2 31 in
      let h2 := wrap64 (h2 + h1) in
      let h2 := wrap64 (h2 * 5 + 0x38495ab5) in
      body n data (S i) h1 h2
  end.

(** [case c: k ^= ((uint64_t)tail[c - 1]) << sh;] with fall-through. *)
Definition tail_xor (c rem : nat) (k : Z) (tail : list Z) (sh : Z) : Z :=
  if (c <=? rem)%nat then Z.lxor k (Z.shiftl (byte_at tail (c - 1)) sh) else k.

Definition tail_mix (tail : list Z) (rem : nat) (h1 h2 : Z) : Z * Z :=
  let k1 := 0 in
  let k2 := 0 in
  let k2 := tail_xor 15 rem k2 tail 48 in
  let k2 := tail_xor 14 rem k2 tail 40 in
  let k2 := tail_xor 13 rem k2 tail 32 in
  let k2 := tail_xor 12 rem k2 tail 24 in
  let k2 := tail_xor 11 rem k2 tail 16 in
  let k2 := tail_xor 10 rem k2 tail 8 in
  let k2 := tail_xor 9 rem k2 tail 0 in
  let h2 := if (9 <=? rem)%nat then Z.lxor h2 (mix_k2 k2) else h2 in
  let k1 := tail_xor 8 rem k1 tail 56 in
  let k1 := tail_xor 7 rem k1 tail 48 in
  let k1 := tail_xor 6 rem k1 tail 40 in
  let k1 := tail_xor 5 rem k1 tail 32 in
  let k1 := tail_xor 4 rem k1 tail 24 in
  let k1 := tail_xor 3 rem k1 tail 16 in
  let k1 := tail_xor 2 rem k1 tail 8 in
  let k1 := tail_xor 1 rem k1 tail 0 in
  let h1 := if (1 <=? rem)%nat then Z.lxor h1 (mix_k1 k1) else h1 in
  (h1, h2).

Definition MurmurHash3_x64_128 (data : list Z) (seed : Z) : Z * Z :=
  let len := length data in
  let nblocks := (len / 16)%nat in
  let '(h1, h2) := body nblocks data 0 seed seed in
  let tail := drop (nblocks * 16) data in
  let '(h1, h2) := tail_mix tail (len mod 16)%nat h1 h2 in
  let h1 := Z.lxor h1 (Z.of_nat len) in
  let h2 := Z.lxor h2 (Z.of_nat len) in
  let h1 := wrap64 (h1 + h2) in
  let h2 := wrap64 (h2 + h1) in
  let h1 := fmix64 h1 in
  let h2 := fmix64 h2 in
  let h1 := wrap64 (h1 + h2) in
  let h2 := wrap64 (h2 + h1) in
  (h1, h2).

(** A value rendered with exactly [digits] lowercase hexadecimal digits. *)
Fixpoint hex_fixed (digits : nat) (n : Z) : jsstring :=
  match digits with
  | O => []
  | S d => hex_fixed d (n / 16) ++ [hexDigit (n mod 16)]
  end.

Definition hex128 (h : Z * Z) : jsstring := hex_fixed 16 (fst h) ++ hex_fixed 16 (snd h).

Definition is_lower_hex (c : N) : bool :=
  ((48 <=? c) && (c <=? 57) || (97 <=? c) && (c <=? 102))%N.

End Ref.
End Murmur3Ref.

#[local] Set Warnings "-register-all".

(** ** JavaScript values, errors and completions

    The fragment of JavaScript values that entropy components carry: plain
    data, on which [JSON.stringify] returns.  A [JNumber] is a safe integer
    (of magnitude below 2^53), which prints in plain decimal; fractions, NaN,
    the infinities, BigInt values and cyclic objects are outside this
    fragment.  The fields of a [JObject] are listed in property-enumeration
    order. *)

Inductive JSValue : Type :=
  | JUndefined
  | JNull
  | JBool (b : bool)
  | JNumber (z : Z)
  | JString (s : jsstring)
  | JArray (items : list JSValue)
  | JObject (fields : list (jsstring * JSValue)).

(** A thrown value: an [Error] object with its name, message and stack. *)
Record JSError : Type := mkError {
  err_name : jsstring;
  err_message : jsstring;
  err_stack : jsstring;
}.

(** A call either returns or throws. *)
Inductive Completion (A : Type) : Type :=
  | Normal (a : A)
  | Throw (e : JSError).
Arguments Normal {A} a.
Arguments Throw {A} e.

Definition TypeError (message : string) : JSError :=
  mkError (str "TypeError") (str message) [].

Section Rendering.

(** [Array.prototype.join] on strings. *)
Fixpoint join_with (sep : jsstring) (parts : list jsstring) : jsstring :=
  match parts with
  | [] => []
  | [p] => p
  | p :: rest => p ++ sep ++ join_with sep rest
  end.

Fixpoint decimal_digits (fuel : nat) (n : Z) (acc : jsstring) : jsstring :=
  match fuel with
  | O => acc
  | S fuel =>
      let acc := Z.to_N (48 + n mod 10) :: acc in
      if (n / 10 =? 0)%Z then acc else decimal_digits fuel (n / 10)%Z acc
  end.

(** [Number.prototype.toString()] on an integer. *)
Definition Number_toString (z : Z) : jsstring :=
  if (z <? 0)%Z then str "-" ++ decimal_digits (S (Z.to_nat (Z.log2 (- z)))) (- z) []
  else decimal_digits (S (Z.to_nat (Z.log2 z))) z [].

Definition backslash : N := 92%N.

Definition unicode_escape (c : N) : jsstring :=
  let z := Z.of_N c in
  backslash :: str "u" ++ [hexDigit ((z / 4096) mod 16); hexDigit ((z / 256) mod 16);
               hexDigit ((z / 16) mod 16); hexDigit (z mod 16)]%Z.

(** The body of [QuoteJSONString]: quotes, backslashes and control characters
    are escaped, and so is every unpaired surrogate. *)
Fixpoint quote_body (s : jsstring) : jsstring :=
  match s with
  | [] => []
  | c :: rest =>
      if (c =? 34)%N then backslash :: 34%N :: quote_body rest
      else if (c =? 92)%N then backslash :: backslash :: quote_body rest
      else if (c =? 8)%N then backslash :: str "b" ++ quote_body rest
      else if (c =? 9)%N then backslash :: str "t" ++ quote_body rest
      else if (c =? 10)%N then backslash :: str "n" ++ quote_body rest
      else if (c =? 12)%N then backslash :: str "f" ++ quote_body rest
      else if (c =? 13)%N then backslash :: str "r" ++ quote_body rest
      else if (c <? 32)%N then unicode_escape c ++ quote_body rest
      else if is_lead_surrogate c then
        match rest with
        | d :: rest' =>
            if is_trail_surrogate d then c :: d :: quote_body rest'
            else unicode_escape c ++ quote_body rest
        | [] => unicode_escape c
        end
      else if is_trail_surrogate c then unicode_escape c ++ quote_body rest
      else c :: quote_body rest
  end.

Definition QuoteJSONString (s : jsstring) : jsstring := [34%N] ++ quote_body s ++ [34%N].

(** [JSON.stringify(value)]: [None] stands for the result [undefined]. *)
Fixpoint JSON_stringify (v : JSValue) : option jsstring :=
  match v with
  | JUndefined => None
  | JNull => Some (str "null")
  | JBool b => Some (if b then str "true" else str "false")
  | JNumber z => Some (Number_toString z)
  | JString s => Some (QuoteJSONString s)
  | JArray items =>
      Some (str "[" ++
            join_with (str ",")
              (List.map (fun e => default (str "null") (JSON_stringify e)) items)
            ++ str "]")
  | JObject fields =>
      Some (str "{" ++
            join_with (str ",")
              ((fix members (fs : list (jsstring * JSValue)) : list jsstring :=
                  match fs with
                  | [] => []
                  | (k, e) :: rest =>
                      match JSON_stringify e with
                      | None => members rest
                      | Some r => (QuoteJSONString k ++ str ":" ++ r) :: members rest
                      end
                  end) fields)
            ++ str "}")
  end.

(** A value substituted into a template literal: [undefined] prints as the
    word. *)
Definition template_string (r : option jsstring) : jsstring :=
  default (str "undefined") r.

(** [ToString] on a value, as [RegExp.prototype.test] applies it. *)
Fixpoint js_ToString (v : JSValue) : jsstring :=
  match v with
  | JUndefined => str "undefined"
  | JNull => str "null"
  | JBool b => if b then str "true" else str "false"
  | JNumber z => Number_toString z
  | JString s => s
  | JArray items =>
      join_with (str ",")
        (List.map (fun e => match e with
                            | JUndefined | JNull => []
                            | _ => js_ToString e
                            end) items)
  | JObject _ => str "[object Object]"
  end.

End Rendering.

(** ** Components and the canonicalizer *)

(** A component is an object with the key [value] or the key [error], and
    [duration].  An absent key is [None]. *)
Record Component : Type := mkComponent {
  value : option JSValue;
  error : option JSError;
  duration : Z;
}.

Definition ValueComponent (v : JSValue) (d : Z) : Component := mkComponent (Some v) None d.
Definition ErrorComponent (e : JSError) (d : Z) : Component := mkComponent None (Some e) d.

(** A set of components is an object keyed by source name. *)
Abbreviation ComponentSet := (gmap jsstring Component).

Section Canonical.

(** [Object.keys(o)]: the keys of the object; every caller below sorts them. *)
Definition Object_keys {A} (o : gmap jsstring A) : list jsstring := (map_to_list o).*1.

(** The default order of [Array.prototype.sort]: strings compare code unit by
    code unit. *)
Fixpoint jsstring_leb (a b : jsstring) : bool :=
  match a, b with
  | [], _ => true
  | _ :: _, [] => false
  | x :: a', y :: b' =>
      if (x <? y)%N then true
      else if (y <? x)%N then false
      else jsstring_leb a' b'
  end.

Definition jsstring_le (a b : jsstring) : Prop := jsstring_leb a b = true.

#[global] Instance jsstring_le_dec a b : Decision (jsstring_le a b).
Proof. unfold jsstring_le. apply _. Defined.

Definition Array_sort (l : list jsstring) : list jsstring := merge_sort jsstring_le l.

(** [componentKey.replace(/([:|\\])/g, '\\$1')] *)
Definition is_special (c : N) : bool := ((c =? 58) || (c =? 124) || (c =? 92))%N.

Fixpoint escapeKey (componentKey : jsstring) : jsstring :=
  match componentKey with
  | [] => []
  | c :: rest =>
      if is_special c then backslash :: c :: escapeKey rest else c :: escapeKey rest
  end.

(** The body of the [for ... of] loop over the sorted keys; [result] is the
    string built so far.  [components[componentKey]] on a missing key is
    [undefined], on which the [in] operator throws. *)
Fixpoint canonical_loop (components : ComponentSet) (keys : list jsstring)
    (result : jsstring) : Completion jsstring :=
  match keys with
  | [] => Normal result
  | componentKey :: keys =>
      match components !! componentKey with
      | None => Throw (TypeError "Cannot use 'in' operator to search for 'error' in undefined")
      | Some component =>
          let value_ :=
            if bool_decide (is_Some (error component)) then str "error"
            else template_string (JSON_stringify (default JUndefined (value component))) in
          canonical_loop components keys
            (result ++ (match result with [] => [] | _ => str "|" end)
                    ++ escapeKey componentKey ++ str ":" ++ value_)
      end
  end.

Definition componentsToCanonicalString (components : ComponentSet) : Completion jsstring :=
  canonical_loop components (Array_sort (Object_keys components)) [].

Definition hashComponents (components : ComponentSet) : Completion jsstring :=
  match componentsToCanonicalString components with
  | Normal canonical => Normal (x64hash128 canonical None)
  | Throw e => Throw e
  end.

(** How one component is rendered after its name. *)
Definition render_component (c : Component) : jsstring :=
  if bool_decide (is_Some (error c)) then str "error"
  else template_string (JSON_stringify (default JUndefined (value c))).

(** One record of the canonical string: the escaped name, a colon, the
    rendered component. *)
Definition canonical_record (cs : ComponentSet) (k : jsstring) : jsstring :=
  escapeKey k ++ str ":" ++ from_option render_component [] (cs !! k).

(** Reads a record back: the name up to the first colon that is not escaped,
    with the escapes removed, and what follows that colon. *)
Fixpoint read_name (s : jsstring) : option (jsstring * jsstring) :=
  match s with
  | [] => None
  | c :: rest =>
      if (c =? 92)%N then
        match rest with
        | d :: rest' =>
            match read_name rest' with
            | Some (name, v) => Some (d :: name, v)
            | None => None
            end
        | [] => None
        end
      else if (c =? 58)%N then Some ([], rest)
      else if (c =? 124)%N then None
      else
        match read_name rest with
        | Some (name, v) => Some (c :: name, v)
        | None => None
        end
  end.

(** The canonical string as C2 words it: names and rendered values both
    escaped. *)
Definition canonical_escaping_values (cs : ComponentSet) : jsstring :=
  join_with (str "|")
    ((fun k => escapeKey k ++ str ":"
               ++ escapeKey (from_option render_component [] (cs !! k)))
       <$> Array_sort (Object_keys cs)).

Definition c2_components : ComponentSet :=
  {[ str "a" := ValueComponent (JString (str "x|y")) 0 ]}.

(** Two components are in the same class when both are errors, or neither is
    and their values are equal. *)
Definition same_outcome_class (a b : Component) : Prop :=
  (is_Some (error a) /\ is_Some (error b))
  \/ (error a = None /\ error b = None /\ value a = value b).

(** The component sets of the scenarios. *)
Definition c3_components : ComponentSet :=
  <[ str "b" := ValueComponent (JNumber 2) 0 ]>
    (<[ str "a" := ValueComponent (JNumber 1) 0 ]> ∅).

Definition c4_components (e : JSError) (d d' : Z) : ComponentSet :=
  <[ str "x" := ErrorComponent e d ]> (<[ str "y" := ValueComponent (JNumber 5) d' ]> ∅).

Definition c4_first : ComponentSet :=
  c4_components (mkError (str "TypeError") (str "x is undefined") (str "at probe:1")) 3 1.
Definition c4_second : ComponentSet :=
  c4_components (mkError (str "RangeError") (str "out of range") (str "at probe:9")) 70 2.

End Canonical.

(** ** Source loader

    The world a source runs in: the clock behind [Date.now()] and, as
    instrumentation, how often the source and the function it returned have
    been invoked.  The model is sequential: the world after a step is the one
    in which the promise made by that step has settled. *)

Record World : Type := mkWorld {
  now : Z;
  source_calls : nat;
  get_calls : nat;
}.

(** What a call hands back: a value that is not a promise, or a promise
    together with the way it settles. *)
Inductive Returned (A : Type) : Type :=
  | Plain (a : A)
  | PromiseOf (settled : Completion A).
Arguments Plain {A} a.
Arguments PromiseOf {A} settled.

(** One invocation of a function of a source: what it does and how long it
    takes until its result is known. *)
Record Call (A : Type) : Type := mkCall {
  outcome : Completion (Returned A);
  elapsed : Z;
}.
Arguments mkCall {A} outcome elapsed.
Arguments outcome {A} c.
Arguments elapsed {A} c.

(** The function a two-stage source returns; [get n] is its behaviour when it
    is invoked for the [n]-th time. *)
Definition GetStage : Type := nat -> Call JSValue.

Inductive LoadResult : Type :=
  | FinalResult (v : JSValue)
  | GetFunction (get : GetStage).

(** A source; [source n] is its behaviour on its [n]-th invocation. *)
Definition Source : Type := nat -> Call LoadResult.

Section Loader.
Local Open Scope Z_scope.

Definition invoke_source (source : Source) (w : World)
    : Completion (Returned LoadResult) * World :=
  let c := source (source_calls w) in
  (outcome c, mkWorld (now w + elapsed c) (S (source_calls w)) (get_calls w)).

Definition invoke_get (get : GetStage) (w : World)
    : Completion (Returned JSValue) * World :=
  let c := get (get_calls w) in
  (outcome c, mkWorld (now w + elapsed c) (source_calls w) (S (get_calls w))).

(** [awaitIfAsync(action, callback)].  The flag and the payload handed to the
    callback form one tagged value: [inr result] for [(true, result)] and
    [inl error] for [(false, error)].  The result is what the callback
    returns, in the world in which it ran. *)
Definition awaitIfAsync {A R : Type}
    (action : World -> Completion (Returned A) * World)
    (callback : JSError + A -> World -> Completion R)
    (w : World) : Completion R * World :=
  let '(returned, w) := action w in
  match returned with
  | Normal (PromiseOf settled) =>
      match settled with
      | Normal result => (callback (inr result) w, w)
      | Throw error => (callback (inl error) w, w)
      end
  | Normal (Plain returnedValue) =>
      match callback (inr returnedValue) w with
      | Normal r => (Normal r, w)
      | Throw error => (callback (inl error) w, w)
      end
  | Throw error => (callback (inl error) w, w)
  end.

(** The three closures [loadSource] resolves its promise with. *)
Inductive FinalizeSource : Type :=
  | FinalizeError (error_ : JSError) (loadDuration : Z)
  | FinalizeValue (loadResult : JSValue) (loadDuration : Z)
  | FinalizeGet (loadResult : GetStage) (loadDuration : Z).

(** [loadSource(source, sourceOptions)]: the settled [sourceLoadPromise]. *)
Definition loadSource (source : Source) (w : World) : Completion FinalizeSource * World :=
  let loadStartTime := now w in
  awaitIfAsync (invoke_source source)
    (fun loadArgs w =>
       let loadDuration := now w - loadStartTime in
       match loadArgs with
       | inl error_ => Normal (FinalizeError error_ loadDuration)
       | inr (FinalResult loadResult) => Normal (FinalizeValue loadResult loadDuration)
       | inr (GetFunction loadResult) => Normal (FinalizeGet loadResult loadDuration)
       end)
    w.

(** [finalizeSource()] *)
Definition finalizeSource (f : FinalizeSource) (w : World) : Completion Component * World :=
  match f with
  | FinalizeError error_ loadDuration => (Normal (ErrorComponent error_ loadDuration), w)
  | FinalizeValue loadResult loadDuration => (Normal (ValueComponent loadResult loadDuration), w)
  | FinalizeGet loadResult loadDuration =>
      let getStartTime := now w in
      awaitIfAsync (invoke_get loadResult)
        (fun getArgs w =>
           let duration_ := loadDuration + now w - getStartTime in
           match getArgs with
           | inl error_ => Normal (ErrorComponent error_ duration_)
           | inr v => Normal (ValueComponent v duration_)
           end)
        w
  end.

(** [getComponent()]: [sourceLoadPromise.then((finalizeSource) => finalizeSource())]. *)
Definition getComponent (sourceLoadPromise : Completion FinalizeSource) (w : World)
    : Completion Component * World :=
  match sourceLoadPromise with
  | Normal f => finalizeSource f w
  | Throw e => (Throw e, w)
  end.

(** A call fails with [e] when it throws [e] or returns a promise that is
    rejected with [e]; it yields [a] when it returns [a] or a promise
    fulfilled with [a]. *)
Definition fails_with {A} (c : Call A) (e : JSError) : Prop :=
  outcome c = Throw e \/ outcome c = Normal (PromiseOf (Throw e)).

Definition yields {A} (c : Call A) (a : A) : Prop :=
  outcome c = Normal (Plain a) \/ outcome c = Normal (PromiseOf (Normal a)).

(** The component made of what one call of a second stage gives, after a
    load that took [loadDuration]: that call's result and, as duration, the
    load's time plus that call's. *)
Definition call_component (loadDuration : Z) (c : Call JSValue) : Component :=
  match outcome c with
  | Throw e | Normal (PromiseOf (Throw e)) => ErrorComponent e (loadDuration + elapsed c)
  | Normal (Plain v) | Normal (PromiseOf (Normal v)) =>
      ValueComponent v (loadDuration + elapsed c)
  end.

(** The getter called twice, as C6 words it: the two calls give the same
    component and the second call invokes neither the source nor the
    function the source returned. *)
Definition getter_idempotent (source : Source) (w : World) : Prop :=
  let '(p, w1) := loadSource source w in
  let '(c1, w2) := getComponent p w1 in
  let '(c2, w3) := getComponent p w2 in
  c1 = c2 /\ source_calls w3 = source_calls w2 /\ get_calls w3 = get_calls w2.

(** A two-stage source whose second stage takes 5 ms the first time and 9 ms
    the second time. *)
Definition two_stage_source : Source :=
  fun _ => mkCall (Normal (Plain (GetFunction
             (fun n => mkCall (Normal (Plain (JNumber 1))) (if n is O then 5 else 9))))) 2.

(** A source that returns after 2 ms a function whose promise is rejected
    after 5 ms. *)
Definition rejecting_get_source (e : JSError) : Source :=
  fun _ => mkCall (Normal (Plain (GetFunction
             (fun _ => mkCall (Normal (PromiseOf (Throw e))) 5)))) 2.

(** A source that throws after 7 ms. *)
Definition throwing_source (e : JSError) : Source :=
  fun _ => mkCall (Throw e) 7.

End Loader.

(** ** Batch scheduler *)

Section Scheduler.
Context {A B : Type}.
Local Open Scope Z_scope.

(** The loop of [mapWithBreaks].  [clock k] is what the [k]-th call of
    [Date.now()] returns; [tick] counts the calls made so far and [releases]
    the event-loop releases awaited.  [results] is the array created by
    [Array(items.length)], a hole being [None]. *)
Fixpoint mapWithBreaks_loop (clock : nat -> Z) (callback : A -> nat -> B)
    (items : list A) (loopReleaseInterval : Z) (fuel : nat) (i tick : nat)
    (lastLoopReleaseTime : Z) (results : list (option B)) (releases : nat)
    : list (option B) * nat :=
  match fuel with
  | O => (results, releases)
  | S fuel =>
      match items !! i with
      | None => (results, releases)
      | Some item =>
          let results := <[i := Some (callback item i)]> results in
          let now_ := clock tick in
          if now_ >=? lastLoopReleaseTime + loopReleaseInterval then
            mapWithBreaks_loop clock callback items loopReleaseInterval fuel
              (S i) (S tick) now_ results (S releases)
          else
            mapWithBreaks_loop clock callback items loopReleaseInterval fuel
              (S i) (S tick) lastLoopReleaseTime results releases
      end
  end.

Definition mapWithBreaks (clock : nat -> Z) (items : list A) (callback : A -> nat -> B)
    (loopReleaseInterval : option Z) : list (option B) * nat :=
  let loopReleaseInterval := default 16 loopReleaseInterval in
  let results := replicate (length items) None in
  let lastLoopReleaseTime := clock 0%nat in
  mapWithBreaks_loop clock callback items loopReleaseInterval (length items)
    0 1 lastLoopReleaseTime results 0.

(** The results expected of a pass: the callback applied to each item and
    its position. *)
Definition mapped (callback : A -> nat -> B) (items : list A) : list (option B) :=
  imap (fun i item => Some (callback item i)) items.

End Scheduler.

(** ** Browser detection

    What the detection helpers read of the running browser.  An object is
    known by the names ['name' in object] finds in it, own or inherited. *)

Definition Props : Type := list jsstring.

Record Navigator : Type := mkNavigator {
  navigator_props : Props;
  (** [navigator.vendor] and [navigator.appVersion]: a string, or
      [undefined] *)
  vendor : option jsstring;
  appVersion : option jsstring;
  (** [navigator.connection]: an object, or [undefined] *)
  connection : option Props;
}.

Record Browser : Type := mkBrowser {
  window : Props;
  navigator : Navigator;
  (** [document.documentElement?.style] *)
  documentElement_style : option Props;
  (** the object [new Audio()] makes; [None] when [Audio] is not defined *)
  Audio : option Props;
  (** [window.HTMLElement.prototype] and the like; [None] when the
      constructor is [undefined] *)
  HTMLElement_prototype : option Props;
  Document_prototype : option Props;
  HTMLButtonElement_prototype : option Props;
  (** the declarations [CSS.supports] accepts; [None] when [window.CSS] is
      [undefined] *)
  CSS_supports : option (list jsstring);
  (** [String(window.print)] and [String(window.browser)] *)
  String_print : jsstring;
  String_browser : jsstring;
}.

Definition ReferenceError (message : string) : JSError :=
  mkError (str "ReferenceError") (str message) [].

Section BrowserDetection.
Local Open Scope Z_scope.

(** ['name' in object] *)
Definition js_in (name : string) (object : Props) : bool :=
  bool_decide (str name ∈ object).

(** [object && 'name' in object] and [object && !('name' in object)], which
    are [undefined] when the object is. *)
Definition and_in (object : option Props) (name : string) : JSValue :=
  match object with
  | Some object => JBool (js_in name object)
  | None => JUndefined
  end.

Definition and_not_in (object : option Props) (name : string) : JSValue :=
  match object with
  | Some object => JBool (negb (js_in name object))
  | None => JUndefined
  end.

Definition ToBoolean (v : JSValue) : bool :=
  match v with
  | JUndefined | JNull => false
  | JBool b => b
  | JNumber z => negb (z =? 0)
  | JString s => if s is [] then false else true
  | JArray _ | JObject _ => true
  end.

Definition countTruthy (values : list JSValue) : Z :=
  fold_left (fun sum value => sum + (if ToBoolean value then 1 else 0)) values 0.

(** [/^prefix/.test(s)] *)
Fixpoint starts_with (prefix s : jsstring) : bool :=
  match prefix, s with
  | [], _ => true
  | _ :: _, [] => false
  | p :: prefix, c :: s => (p =? c)%N && starts_with prefix s
  end.

(** [s.indexOf(search)] *)
Fixpoint indexOf_from (search s : jsstring) (position : Z) : Z :=
  if starts_with search s then position
  else
    match s with
    | [] => -1
    | _ :: s => indexOf_from search s (position + 1)
    end.

Definition String_indexOf (s search : jsstring) : Z := indexOf_from search s 0.

(** The character classes [\s] and the line terminators, which [.] does not
    match. *)
Definition is_space (c : N) : bool :=
  bool_decide (c ∈ [9; 10; 11; 12; 13; 32; 160; 0x1680; 0x2028; 0x2029; 0x202f; 0x205f;
                     0x3000; 0xfeff]%N)
  || ((0x2000 <=? c) && (c <=? 0x200a))%N.

Definition is_line_terminator (c : N) : bool :=
  bool_decide (c ∈ [10; 13; 0x2028; 0x2029]%N).

Fixpoint skip_spaces (s : jsstring) : jsstring :=
  match s with
  | c :: rest => if is_space c then skip_spaces rest else s
  | [] => []
  end.

(** [\{\s*\[native code]\s*}$] at the start of [s] *)
Definition native_body (s : jsstring) : bool :=
  match s with
  | 123%N :: s =>
      let s := skip_spaces s in
      starts_with (str "[native code]") s
      && bool_decide (skip_spaces (drop 13 s) = [125%N])
  | _ => false
  end.

(** [.*?\{\s*\[native code]\s*}$] at the start of [s] *)
Fixpoint lazy_native_body (s : jsstring) : bool :=
  native_body s
  || match s with
     | c :: rest => negb (is_line_terminator c) && lazy_native_body rest
     | [] => false
     end.

(** [isFunctionNative(func)], given [String(func)] *)
Definition isFunctionNative (String_func : jsstring) : bool :=
  starts_with (str "function") String_func
  && match drop 8 String_func with
     | c :: rest => is_space c && lazy_native_body rest
     | [] => false
     end.

(** The canonicalization of a code unit under the flag [i]: only the letters
    a-z change. *)
Definition canonicalize (c : N) : N :=
  if ((97 <=? c) && (c <=? 122))%N then (c - 32)%N else c.

(** [/android/i.test(s)] *)
Fixpoint test_android (s : jsstring) : bool :=
  starts_with (str "ANDROID") (canonicalize <$> take 7 s)
  || match s with
     | _ :: rest => test_android rest
     | [] => false
     end.

Definition isChromium (env : Browser) : bool :=
  let w := window env in
  let n := navigator env in
  countTruthy [
    JBool (js_in "webkitPersistentStorage" (navigator_props n));
    JBool (js_in "webkitTemporaryStorage" (navigator_props n));
    JBool (String_indexOf
             (match vendor n with Some (c :: v) => c :: v | _ => [] end)
             (str "Google") =? 0);
    JBool (js_in "webkitResolveLocalFileSystemURL" w);
    JBool (js_in "BatteryManager" w);
    JBool (js_in "webkitMediaStream" w);
    JBool (js_in "webkitSpeechGrammar" w)
  ] >=? 5.

Definition isGecko (env : Browser) : bool :=
  let w := window env in
  countTruthy [
    JBool (js_in "buildID" (navigator_props (navigator env)));
    JBool (js_in "MozAppearance" (default [] (documentElement_style env)));
    JBool (js_in "onmozfullscreenchange" w);
    JBool (js_in "mozInnerScreenX" w);
    JBool (js_in "CSSMozDocumentRule" w);
    JBool (js_in "CanvasCaptureMediaStream" w)
  ] >=? 4.

Definition isWebKit (env : Browser) : Completion bool :=
  let w := window env in
  let n := navigator env in
  match vendor n with
  | None => Throw (TypeError "Cannot read properties of undefined (reading 'indexOf')")
  | Some vendor =>
      Normal (countTruthy [
        JBool (js_in "ApplePayError" w);
        JBool (js_in "CSSPrimitiveValue" w);
        JBool (js_in "Counter" w);
        JBool (String_indexOf vendor (str "Apple") =? 0);
        JBool (js_in "RGBColor" w);
        JBool (js_in "WebKitMediaKeys" w)
      ] >=? 4)
  end.

Definition isDesktopWebKit (env : Browser) : bool :=
  let w := window env in
  countTruthy [
    JBool (js_in "safari" w);
    JBool (negb (js_in "ongestureend" w));
    JBool (negb (js_in "TouchEvent" w));
    JBool (negb (js_in "orientation" w));
    and_not_in (HTMLElement_prototype env) "autocapitalize";
    and_in (Document_prototype env) "pointerLockElement"
  ] >=? 4.

Definition isSafariWebKit (env : Browser) : bool :=
  isFunctionNative (String_print env)
  && bool_decide (String_browser env = str "[object WebPageNamespace]").

Definition isWebKit616OrNewer (env : Browser) : Completion bool :=
  let w := window env in
  let n := navigator env in
  match CSS_supports env with
  | None => Throw (TypeError "Cannot read properties of undefined (reading 'supports')")
  | Some supported =>
      Normal (countTruthy [
        JBool (negb (js_in "getStorageUpdates" (navigator_props n)));
        and_in (HTMLButtonElement_prototype env) "popover";
        JBool (js_in "CSSCounterStyleRule" w);
        JBool (bool_decide (str "font-size-adjust: ex-height 0.5" ∈ supported));
        JBool (bool_decide (str "text-transform: full-width" ∈ supported))
      ] >=? 4)
  end.

Definition isAndroid (env : Browser) : Completion bool :=
  let isItChromium := isChromium env in
  let isItGecko := isGecko env in
  let w := window env in
  let n := navigator env in
  if isItChromium then
    match Audio env with
    | None => Throw (ReferenceError "Audio is not defined")
    | Some audio =>
        Normal (countTruthy [
          JBool (negb (js_in "SharedWorker" w));
          and_in (connection n) "ontypechange";
          JBool (negb (js_in "sinkId" audio))
        ] >=? 2)
    end
  else if isItGecko then
    Normal (countTruthy [
      JBool (js_in "onorientationchange" w);
      JBool (js_in "orientation" w);
      JBool (test_android (default (str "undefined") (appVersion n)))
    ] >=? 2)
  else Normal false.

End BrowserDetection.

(** ** Confidence *)

(** The result of [getConfidence]; the [comment] string, a rendering of the
    floating-point [proConfidenceScore], is left out. *)
Record Confidence : Type := mkConfidence { score : Q }.

Section ConfidenceScore.

Definition getOpenConfidenceScore (env : Browser) (components : ComponentSet)
    : Completion Q :=
  match isAndroid env with
  | Throw e => Throw e
  | Normal true => Normal 0.4%Q
  | Normal false =>
      match isWebKit env with
      | Throw e => Throw e
      | Normal true =>
          if isDesktopWebKit env then
            match isWebKit616OrNewer env with
            | Throw e => Throw e
            | Normal newer =>
                Normal (if negb (newer && isSafariWebKit env) then 0.5%Q else 0.3%Q)
            end
          else Normal 0.3%Q
      | Normal false =>
          match components !! str "platform" with
          | None =>
              Throw (TypeError "Cannot use 'in' operator to search for 'value' in undefined")
          | Some component =>
              let platform :=
                match value component with
                | Some v => v
                | None => JString []
                end in
              if starts_with (str "Win") (js_ToString platform) then Normal 0.6%Q
              else if starts_with (str "Mac") (js_ToString platform) then Normal 0.5%Q
              else Normal 0.7%Q
          end
      end
  end.

Definition getConfidence (env : Browser) (components : ComponentSet)
    : Completion Confidence :=
  match getOpenConfidenceScore env components with
  | Normal openConfidenceScore => Normal (mkConfidence openConfidenceScore)
  | Throw e => Throw e
  end.

(** Browsers and component sets of the scenarios: Chrome on a desktop, Chrome
    on Android, Safari 16 and Safari 17 on a Mac, Safari on an iPhone, and a
    browser without [navigator.vendor]. *)
Definition chromium_window : Props :=
  [str "webkitResolveLocalFileSystemURL"; str "BatteryManager"; str "webkitMediaStream";
   str "webkitSpeechGrammar"].

Definition chromium_navigator (connection : option Props) : Navigator :=
  mkNavigator [str "webkitPersistentStorage"; str "webkitTemporaryStorage"]
    (Some (str "Google Inc.")) (Some (str "5.0 (X11; Linux x86_64)")) connection.

Definition native_print : jsstring := str "function print() { [native code] }".


Definition android_browser : Browser :=
  mkBrowser (str "ontouchstart" :: chromium_window)
    (chromium_navigator (Some [str "ontypechange"]))
    (Some []) (Some []) (Some [str "autocapitalize"]) (Some []) (Some [str "popover"])
    (Some [str "text-transform: full-width"]) native_print (str "undefined").






Definition vendorless_browser : Browser :=
  mkBrowser [] (mkNavigator [] None None None) None None None None None None [] [].

Definition windows_components : ComponentSet :=
  {[ str "platform" := ValueComponent (JString (str "Win32")) 0 ]}.


Definition linux_components : ComponentSet :=
  {[ str "platform" := ValueComponent (JString (str "Linux x86_64")) 0 ]}.


End ConfidenceScore.

(** ** The lazily hashed result *)

Definition version : jsstring := str "5.0.1".

(** The object [makeLazyGetResult] returns, with the variable
    [visitorIdCache] its accessors close over; [hash_calls] counts the calls
    of [hashComponents] made by the getter. *)
Record GetResult : Type := mkGetResult {
  visitorIdCache : option jsstring;
  result_confidence : Confidence;
  result_components : ComponentSet;
  result_version : jsstring;
  hash_calls : nat;
}.

Section LazyResult.

Definition makeLazyGetResult (env : Browser) (components : ComponentSet)
    : Completion GetResult :=
  match getConfidence env components with
  | Normal confidence => Normal (mkGetResult None confidence components version 0)
  | Throw e => Throw e
  end.

(** [get visitorId()] *)
Definition get_visitorId (this : GetResult) : Completion jsstring * GetResult :=
  match visitorIdCache this with
  | None =>
      let counted := S (hash_calls this) in
      match hashComponents (result_components this) with
      | Normal h =>
          (Normal h,
           mkGetResult (Some h) (result_confidence this) (result_components this)
             (result_version this) counted)
      | Throw e =>
          (Throw e,
           mkGetResult None (result_confidence this) (result_components this)
             (result_version this) counted)
      end
  | Some cached => (Normal cached, this)
  end.

(** [set visitorId(visitorId)] *)
Definition set_visitorId (visitorId : jsstring) (this : GetResult) : GetResult :=
  mkGetResult (Some visitorId) (result_confidence this) (result_components this)
    (result_version this) (hash_calls this).

(** An assignment to the plain property [components]. *)
Definition set_components (components : ComponentSet) (this : GetResult) : GetResult :=
  mkGetResult (visitorIdCache this) (result_confidence this) components
    (result_version this) (hash_calls this).

(** What a caller may do with the object, short of using the [visitorId]
    setter. *)
Inductive Access : Type :=
  | ReadVisitorId
  | AssignComponents (components : ComponentSet).

(** What the [components] property holds when [visitorId] is first read,
    after the assignments made before that read. *)
Fixpoint held_at_first_read (ops : list Access) (components : ComponentSet)
    : ComponentSet :=
  match ops with
  | [] => components
  | ReadVisitorId :: _ => components
  | AssignComponents components :: ops => held_at_first_read ops components
  end.

(** Runs the accesses in order and collects what the reads return. *)
Fixpoint run_accesses (ops : list Access) (this : GetResult)
    : list (Completion jsstring) * GetResult :=
  match ops with
  | [] => ([], this)
  | ReadVisitorId :: ops =>
      let '(r, this) := get_visitorId this in
      let '(rs, this) := run_accesses ops this in
      (r :: rs, this)
  | AssignComponents components :: ops => run_accesses ops (set_components components this)
  end.

(** The identifier of [windows_components]. *)
Definition windows_visitorId : jsstring := str "cadb5c2619511ff97a6aff7d5bf849e5".

End LazyResult.

(** ** Further definitions: inverses and readers used in statements *)

Section HashVocabulary.
Local Open Scope Z_scope.

(** The inverse of [Murmur3Ref.fmix64] on 64-bit values: the multipliers are
    odd, so they have inverses modulo 2^64, and a shift by 33 bits undoes
    itself. *)
Definition fmix64_inverse (k : Z) : Z :=
  let k := Z.lxor k (Z.shiftr k 33) in
  let k := Murmur3Ref.wrap64 (k * 0x9cb4b2f8129337db) in
  let k := Z.lxor k (Z.shiftr k 33) in
  let k := Murmur3Ref.wrap64 (k * 0x4f74430c22a54005) in
  let k := Z.lxor k (Z.shiftr k 33) in
  k.

(** The value of a hexadecimal digit and of a string of digits. *)
Definition hexDigit_value (c : N) : Z :=
  let z := Z.of_N c in
  if z <? 58 then z - 48 else z - 87.

Definition hex_value (s : jsstring) : Z :=
  foldl (fun acc c => 16 * acc + hexDigit_value c) 0 s.

(** Every number [x64Multiply] computes before it masks or shifts it: the
    values assigned to [o3], [o2], [o1] and [o0] by its [+=] statements, in
    order. *)
Definition x64Multiply_sums (m n : X64) : list Z :=
  let m0 := js_shru (w0 m) 16 in let m1 := js_and (w0 m) 0xffff in
  let m2 := js_shru (w1 m) 16 in let m3 := js_and (w1 m) 0xffff in
  let n0 := js_shru (w0 n) 16 in let n1 := js_and (w0 n) 0xffff in
  let n2 := js_shru (w1 n) 16 in let n3 := js_and (w1 n) 0xffff in
  let o0 := 0 in let o1 := 0 in let o2 := 0 in let o3 := 0 in
  let o3 := o3 + m3 * n3 in let s1 := o3 in
  let o2 := o2 + js_shru o3 16 in let s2 := o2 in
  let o3 := js_and o3 0xffff in
  let o2 := o2 + m2 * n3 in let s3 := o2 in
  let o1 := o1 + js_shru o2 16 in let s4 := o1 in
  let o2 := js_and o2 0xffff in
  let o2 := o2 + m3 * n2 in let s5 := o2 in
  let o1 := o1 + js_shru o2 16 in let s6 := o1 in
  let o2 := js_and o2 0xffff in
  let o1 := o1 + m1 * n3 in let s7 := o1 in
  let o0 := o0 + js_shru o1 16 in let s8 := o0 in
  let o1 := js_and o1 0xffff in
  let o1 := o1 + m2 * n2 in let s9 := o1 in
  let o0 := o0 + js_shru o1 16 in let s10 := o0 in
  let o1 := js_and o1 0xffff in
  let o1 := o1 + m3 * n1 in let s11 := o1 in
  let o0 := o0 + js_shru o1 16 in let s12 := o0 in
  let o1 := js_and o1 0xffff in
  let o0 := o0 + (m0 * n3 + m1 * n2 + m2 * n1 + m3 * n0) in let s13 := o0 in
  [s1; s2; s3; s4; s5; s6; s7; s8; s9; s10; s11; s12; s13].

End HashVocabulary.

Section CanonicalVocabulary.

(** A component set to extend. *)
Definition append_example : ComponentSet :=
  {[ str "audio" := ValueComponent (JNumber 35) 4 ]}.

End CanonicalVocabulary.

(** ** Further utilities *)

Section Utilities.
Context {A : Type} `{EqDecision A}.

(** The loop of [includes(haystack, needle)]; [l] is [haystack.length].
    Elements are values on which [===] is equality, such as strings (not
    [NaN]); reading a hole gives [undefined], which is not equal to such a
    needle. *)
Fixpoint includes_loop (haystack : list A) (needle : A) (l fuel i : nat) : bool :=
  match fuel with
  | O => false
  | S fuel =>
      if (i <? l)%nat then
        match haystack !! i with
        | Some x =>
            if decide (x = needle) then true
            else includes_loop haystack needle l fuel (S i)
        | None => includes_loop haystack needle l fuel (S i)
        end
      else false
  end.

Definition includes (haystack : list A) (needle : A) : bool :=
  includes_loop haystack needle (length haystack) (length haystack) 0.

Definition excludes (haystack : list A) (needle : A) : bool :=
  negb (includes haystack needle).

End Utilities.

(** ** transformSource

    [transformValue] is a synchronous function that returns a value or
    throws, and takes no time. *)

Section TransformSource.
Local Open Scope Z_scope.

(** What a promise resolved with the result of a call settles to: a promise
    returned by the call is adopted. *)
Definition resolved_with {B : Type} (o : Completion (Returned B)) : Completion B :=
  match o with
  | Throw e => Throw e
  | Normal (Plain b) => Normal b
  | Normal (PromiseOf settled) => settled
  end.

(** A call of a function [() => { const r = g(); return isPromise(r) ?
    r.then(f) : f(r) }], where [c] is the call of [g] and [f a] the call of
    [f] that follows: the shape of both closures of [transformSource].  What
    [g] throws is thrown and a rejection of its promise is passed on, [f] not
    being called; otherwise [f] runs when the result of [g] is known, and its
    time counts. *)
Definition then_call {A B : Type} (c : Call A) (f : A -> Call B) : Call B :=
  match outcome c with
  | Throw e => mkCall (Throw e) (elapsed c)
  | Normal (Plain a) => mkCall (outcome (f a)) (elapsed c + elapsed (f a))
  | Normal (PromiseOf (Throw e)) => mkCall (Normal (PromiseOf (Throw e))) (elapsed c)
  | Normal (PromiseOf (Normal a)) =>
      mkCall (Normal (PromiseOf (resolved_with (outcome (f a)))))
        (elapsed c + elapsed (f a))
  end.

(** [transformValue(loadResult)] handed on as a load result.  A call of
    [transformValue] is given by the value it is applied to; it returns a
    value or a promise of one, not a function. *)
Definition as_final (c : Call JSValue) : Call LoadResult :=
  mkCall
    (match outcome c with
     | Throw e => Throw e
     | Normal (Plain v) => Normal (Plain (FinalResult v))
     | Normal (PromiseOf (Normal v)) => Normal (PromiseOf (Normal (FinalResult v)))
     | Normal (PromiseOf (Throw e)) => Normal (PromiseOf (Throw e))
     end)
    (elapsed c).

Definition transformLoadResult (transformValue : JSValue -> Call JSValue)
    (loadResult : LoadResult) : Call LoadResult :=
  match loadResult with
  | FinalResult v => as_final (transformValue v)
  | GetFunction get =>
      mkCall (Normal (Plain (GetFunction (fun n => then_call (get n) transformValue)))) 0
  end.

Definition transformSource (source : Source) (transformValue : JSValue -> Call JSValue)
    : Source :=
  fun n => then_call (source n) (transformLoadResult transformValue).



(** A transformation that takes 3 ms and returns a promise of the value in an
    array, but throws on [null]. *)
Definition boxing_transform (v : JSValue) : Call JSValue :=
  match v with
  | JNull => mkCall (Throw (TypeError "nothing to box")) 1
  | _ => mkCall (Normal (PromiseOf (Normal (JArray [v])))) 3
  end.

(** A two-stage source: 12 ms until its promise gives the function, 40 ms
    for the function. *)
Definition slow_two_stage : Source :=
  fun _ => mkCall (Normal (PromiseOf (Normal (GetFunction
             (fun _ => mkCall (Normal (Plain (JString (str "landscape")))) 40))))) 12.

End TransformSource.

(** ** Loading several sources *)

Section StatefulScheduler.
Context {St A B : Type}.
Local Open Scope Z_scope.



End StatefulScheduler.

Section LoadSources.
Local Open Scope Z_scope.








(** [release_time k] is how long the [k]-th [await releaseEventLoop()] of the
    page takes. *)
Variable release_time : nat -> Z.


(** The [sources] object: its own properties in the order of [Object.keys]. *)
Definition Sources : Type := list (jsstring * Source).

(** [sources[sourceKey]] *)
Fixpoint sources_get (sources : Sources) (sourceKey : jsstring) : option Source :=
  match sources with
  | [] => None
  | (key, source) :: sources =>
      if decide (key = sourceKey) then Some source else sources_get sources sourceKey
  end.














End LoadSources.

Section LoadSourcesVocabulary.















End LoadSourcesVocabulary.

(** * Proofs

    ** The tuple arithmetic is arithmetic modulo 2^64 *)

Section U32Facts.
Local Open Scope Z_scope.

Lemma ToUint32_range x : 0 <= ToUint32 x < 2 ^ 32.
Proof. unfold ToUint32. apply Z.mod_pos_bound. lia. Qed.

Lemma ToUint32_ToInt32 x : ToUint32 (ToInt32 x) = ToUint32 x.
Proof.
  unfold ToUint32, ToInt32.
  rewrite Zminus_mod_idemp_l.
  f_equal. lia.
Qed.

Lemma ToUint32_small x : 0 <= x < 2 ^ 32 -> ToUint32 x = x.
Proof. intros. unfold ToUint32. by apply Z.mod_small. Qed.

Lemma ToUint32_land_ones x : ToUint32 x = Z.land x (Z.ones 32).
Proof. unfold ToUint32. by rewrite Z.land_ones. Qed.

Lemma ToUint32_lor a b : ToUint32 (Z.lor a b) = Z.lor (ToUint32 a) (ToUint32 b).
Proof. rewrite !ToUint32_land_ones. apply Z.land_lor_distr_l. Qed.

Lemma ToUint32_lxor a b : ToUint32 (Z.lxor a b) = Z.lxor (ToUint32 a) (ToUint32 b).
Proof.
  rewrite !ToUint32_land_ones. apply Z.bits_inj'. intros i Hi.
  rewrite ?Z.land_spec, ?Z.lxor_spec, ?Z.land_spec.
  destruct (Z.testbit (Z.ones 32) i), (Z.testbit a i), (Z.testbit b i); done.
Qed.

Lemma ToUint32_js_or a b : ToUint32 (js_or a b) = Z.lor (ToUint32 a) (ToUint32 b).
Proof. unfold js_or. by rewrite ToUint32_lor, !ToUint32_ToInt32. Qed.

Lemma ToUint32_js_xor a b : ToUint32 (js_xor a b) = Z.lxor (ToUint32 a) (ToUint32 b).
Proof. unfold js_xor. by rewrite ToUint32_lxor, !ToUint32_ToInt32. Qed.

Lemma mod_32_16 a : (a mod 2 ^ 32) mod 2 ^ 16 = a mod 2 ^ 16.
Proof.
  apply Z.mod_mod_divide. exists (2 ^ 16). lia.
Qed.

Lemma js_and_ffff x : js_and x 0xffff = x mod 2 ^ 16.
Proof.
  unfold js_and. change (ToInt32 0xffff) with (Z.ones 16).
  rewrite Z.land_ones by lia.
  rewrite <- (mod_32_16 (ToInt32 x)), <- (mod_32_16 x).
  f_equal. apply ToUint32_ToInt32.
Qed.

Lemma js_shru_spec x n : 0 <= n < 32 -> js_shru x n = ToUint32 x / 2 ^ n.
Proof.
  intros Hn. unfold js_shru.
  rewrite (ToUint32_small n) by lia.
  rewrite (Z.mod_small n 32) by lia.
  apply Z.shiftr_div_pow2. lia.
Qed.

Lemma ToUint32_js_shl a n :
  0 <= n < 32 -> ToUint32 (js_shl a n) = (ToUint32 a * 2 ^ n) mod 2 ^ 32.
Proof.
  intros Hn. unfold js_shl.
  rewrite (ToUint32_small n) by lia.
  rewrite (Z.mod_small n 32) by lia.
  rewrite ToUint32_ToInt32, Z.shiftl_mul_pow2 by lia.
  unfold ToUint32 at 1. rewrite <- Z.mul_mod_idemp_l by lia.
  fold (ToUint32 (ToInt32 a)). by rewrite ToUint32_ToInt32.
Qed.

(** A value below [2 ^ b] fits under one shifted by [b] bits. *)
Lemma lor_shiftl_add h l b :
  0 <= b -> 0 <= l < 2 ^ b -> Z.lor (Z.shiftl h b) l = h * 2 ^ b + l.
Proof.
  intros Hb Hl.
  assert (Z.land (Z.shiftl h b) l = 0) as Hdisj.
  { apply Z.bits_inj'. intros i Hi. rewrite Z.land_spec, Z.bits_0.
    destruct (Z_lt_le_dec i b).
    - rewrite Z.shiftl_spec_low by lia. done.
    - destruct (decide (l = 0)) as [->|]; [by rewrite Z.bits_0, andb_false_r|].
      rewrite (Z.bits_above_log2 l i), andb_false_r; [done|lia|].
      apply Z.lt_le_trans with b; [|lia]. apply Z.log2_lt_pow2; lia. }
  rewrite <- Z.lxor_lor, <- Z.add_nocarry_lxor by done.
  by rewrite Z.shiftl_mul_pow2.
Qed.

(** [(hi << 16) | lo] glues two 16-bit halves. *)
Lemma ToUint32_glue hi lo :
  0 <= hi < 2 ^ 16 -> 0 <= lo < 2 ^ 16 ->
  ToUint32 (js_or (js_shl hi 16) lo) = hi * 2 ^ 16 + lo.
Proof.
  intros Hhi Hlo.
  rewrite ToUint32_js_or, ToUint32_js_shl by lia.
  rewrite !ToUint32_small by lia.
  rewrite (Z.mod_small (hi * 2 ^ 16)) by lia.
  rewrite <- (lor_shiftl_add hi lo 16) by lia.
  by rewrite Z.shiftl_mul_pow2 by lia.
Qed.

Lemma mod16_range x : 0 <= x mod 2 ^ 16 < 2 ^ 16.
Proof. apply Z.mod_pos_bound. lia. Qed.

Lemma mod_16_ToUint32 x : ToUint32 x mod 2 ^ 16 = x mod 2 ^ 16.
Proof. apply mod_32_16. Qed.

Lemma x64Add_spec m n : U64 (x64Add m n) = (U64 m + U64 n) mod 2 ^ 64.
Proof.
  unfold x64Add, U64. cbn [w0 w1].
  rewrite !js_and_ffff, !js_shru_spec by lia.
  rewrite !ToUint32_glue by apply mod16_range.
  rewrite <- !(mod_16_ToUint32 (w0 _)), <- !(mod_16_ToUint32 (w1 _)).
  pose proof (ToUint32_range (w0 m)). pose proof (ToUint32_range (w1 m)).
  pose proof (ToUint32_range (w0 n)). pose proof (ToUint32_range (w1 n)).
  generalize dependent (ToUint32 (w0 m)). generalize dependent (ToUint32 (w1 m)).
  generalize dependent (ToUint32 (w0 n)). generalize dependent (ToUint32 (w1 n)).
  intros. unfold ToUint32.
  Z.div_mod_to_equations. lia.
Qed.

(** Splitting a 32-bit word into the two 16-bit halves the source works on. *)
Lemma split16 x :
  exists h l, 0 <= h < 2 ^ 16 /\ 0 <= l < 2 ^ 16 /\
    ToUint32 x = h * 2 ^ 16 + l /\ ToUint32 x / 2 ^ 16 = h /\ x mod 2 ^ 16 = l.
Proof.
  exists (ToUint32 x / 2 ^ 16), (ToUint32 x mod 2 ^ 16).
  pose proof (ToUint32_range x).
  rewrite <- (mod_16_ToUint32 x).
  repeat split; try (Z.div_mod_to_equations; lia).
Qed.

Lemma limb_product a b :
  0 <= a < 2 ^ 16 -> 0 <= b < 2 ^ 16 -> 0 <= a * b <= 4294836225.
Proof. nia. Qed.

Lemma x64Multiply_spec m n : U64 (x64Multiply m n) = (U64 m * U64 n) mod 2 ^ 64.
Proof.
  unfold x64Multiply, U64. cbn [w0 w1].
  rewrite !js_and_ffff, !js_shru_spec by lia.
  rewrite !ToUint32_glue by apply mod16_range.
  destruct (split16 (w0 m)) as (m0 & m1 & Hm0 & Hm1 & -> & -> & ->).
  destruct (split16 (w1 m)) as (m2 & m3 & Hm2 & Hm3 & -> & -> & ->).
  destruct (split16 (w0 n)) as (n0 & n1 & Hn0 & Hn1 & -> & -> & ->).
  destruct (split16 (w1 n)) as (n2 & n3 & Hn2 & Hn3 & -> & -> & ->).
  replace (((m0 * 2 ^ 16 + m1) * 2 ^ 32 + (m2 * 2 ^ 16 + m3)) *
           ((n0 * 2 ^ 16 + n1) * 2 ^ 32 + (n2 * 2 ^ 16 + n3)))
    with (m3 * n3 + (m2 * n3 + m3 * n2) * 2 ^ 16
          + (m1 * n3 + m2 * n2 + m3 * n1) * 2 ^ 32
          + (m0 * n3 + m1 * n2 + m2 * n1 + m3 * n0) * 2 ^ 48
          + (m0 * n0 * 2 ^ 32 + (m0 * n1 + m1 * n0) * 2 ^ 16
             + (m0 * n2 + m1 * n1 + m2 * n0)) * 2 ^ 64) by ring.
  rewrite Z_mod_plus_full.
  pose proof (limb_product m3 n3 Hm3 Hn3). pose proof (limb_product m2 n3 Hm2 Hn3).
  pose proof (limb_product m3 n2 Hm3 Hn2). pose proof (limb_product m1 n3 Hm1 Hn3).
  pose proof (limb_product m2 n2 Hm2 Hn2). pose proof (limb_product m3 n1 Hm3 Hn1).
  pose proof (limb_product m0 n3 Hm0 Hn3). pose proof (limb_product m1 n2 Hm1 Hn2).
  pose proof (limb_product m2 n1 Hm2 Hn1). pose proof (limb_product m3 n0 Hm3 Hn0).
  generalize dependent (m3 * n3). generalize dependent (m2 * n3).
  generalize dependent (m3 * n2). generalize dependent (m1 * n3).
  generalize dependent (m2 * n2). generalize dependent (m3 * n1).
  generalize dependent (m0 * n3). generalize dependent (m1 * n2).
  generalize dependent (m2 * n1). generalize dependent (m3 * n0).
  intros. unfold ToUint32.
  Z.div_mod_to_equations. lia.
Qed.

Import Murmur3Ref.

Lemma U64_range m : 0 <= U64 m < 2 ^ 64.
Proof.
  unfold U64. pose proof (ToUint32_range (w0 m)). pose proof (ToUint32_range (w1 m)). lia.
Qed.

Lemma shl_mod_split a b :
  0 <= b <= 32 -> (a * 2 ^ b) mod 2 ^ 32 = (a mod 2 ^ (32 - b)) * 2 ^ b.
Proof.
  intros Hb. replace (2 ^ 32) with (2 ^ (32 - b) * 2 ^ b).
  - apply Z.mul_mod_distr_r; lia.
  - rewrite <- Z.pow_add_r by lia. f_equal. lia.
Qed.

(** [(a << b) | (c >>> (32 - b))] on 32-bit words, for [0 < b < 32]. *)
Lemma ToUint32_funnel a c b :
  0 < b < 32 ->
  ToUint32 (js_or (js_shl a b) (js_shru c (32 - b)))
  = (ToUint32 a mod 2 ^ (32 - b)) * 2 ^ b + ToUint32 c / 2 ^ (32 - b).
Proof.
  intros Hb.
  assert (0 <= ToUint32 c / 2 ^ (32 - b) < 2 ^ b) as Hc.
  { pose proof (ToUint32_range c). split; [apply Z.div_pos; lia|].
    apply Z.div_lt_upper_bound; [lia|]. rewrite <- Z.pow_add_r by lia.
    replace (32 - b + b) with 32 by lia. lia. }
  assert (2 ^ b <= 2 ^ 32) by (apply Z.pow_le_mono_r; lia).
  rewrite ToUint32_js_or, ToUint32_js_shl, js_shru_spec by lia.
  rewrite shl_mod_split by lia.
  rewrite (ToUint32_small (_ / _)) by lia.
  rewrite <- (lor_shiftl_add _ _ b) by lia.
  by rewrite Z.shiftl_mul_pow2 by lia.
Qed.

Lemma ROTL64_arith x r :
  0 <= x < 2 ^ 64 -> 0 < r < 64 ->
  ROTL64 x r = (x mod 2 ^ (64 - r)) * 2 ^ r + x / 2 ^ (64 - r).
Proof.
  intros Hx Hr. unfold ROTL64, wrap64.
  rewrite Z.shiftl_mul_pow2, Z.shiftr_div_pow2 by lia.
  replace (2 ^ 64) with (2 ^ (64 - r) * 2 ^ r)
    by (rewrite <- Z.pow_add_r by lia; f_equal; lia).
  rewrite Z.mul_mod_distr_r by lia.
  rewrite <- (lor_shiftl_add _ _ r); [by rewrite Z.shiftl_mul_pow2 by lia|lia|]. split; [apply Z.div_pos; lia|].
  apply Z.div_lt_upper_bound; [lia|]. rewrite <- Z.pow_add_r by lia.
  replace (64 - r + r) with 64 by lia. lia.
Qed.

Ltac enum_nat k n tac :=
  lazymatch n with
  | O => exfalso; lia
  | S ?n' => destruct k as [|k]; [first [exfalso; lia | tac] | enum_nat k n' tac]
  end.

(** Case analysis on a shift count known to lie strictly between 0 and 64. *)
Ltac enum_bits b tac :=
  let k := fresh "k" in let Hk := fresh "Hk" in
  assert (exists n : nat, b = Z.of_nat n /\ (n < 64)%nat) as (k & -> & Hk)
    by (exists (Z.to_nat b); lia);
  enum_nat k 64%nat tac.

Ltac eval_pow2 :=
  repeat match goal with
  | |- context [Z.of_nat ?n] =>
      let v := eval vm_compute in (Z.of_nat n) in change (Z.of_nat n) with v
  end;
  repeat match goal with
  | |- context [2 ^ ?e] =>
      let v := eval vm_compute in (2 ^ e) in progress change (2 ^ e) with v
  end.

Ltac solve_shift_case := eval_pow2; Z.div_mod_to_equations; lia.

Lemma x64Rotl_spec m bits :
  0 < bits < 64 -> U64 (x64Rotl m bits) = ROTL64 (U64 m) bits.
Proof.
  intros Hb. rewrite ROTL64_arith by (auto using U64_range).
  unfold x64Rotl, U64. rewrite (Z.rem_small bits 64) by lia.
  pose proof (ToUint32_range (w0 m)) as H0. pose proof (ToUint32_range (w1 m)) as H1.
  destruct (Z.eqb_spec bits 32) as [E32|E32]; [|destruct (Z.ltb_spec bits 32) as [Elt|Elt]];
    cbn [w0 w1].
  - assert (bits = 32) as -> by lia. Z.div_mod_to_equations. lia.
  - rewrite !ToUint32_funnel by lia.
    generalize dependent (ToUint32 (w0 m)). generalize dependent (ToUint32 (w1 m)).
    intros lo Hlo hi Hhi.
    enum_bits bits solve_shift_case.
  - rewrite !ToUint32_funnel by lia.
    generalize dependent (ToUint32 (w0 m)). generalize dependent (ToUint32 (w1 m)).
    intros lo Hlo hi Hhi.
    enum_bits bits solve_shift_case.
Qed.

Lemma testbit_above_pow2 n p i :
  0 <= n < 2 ^ p -> 0 <= p <= i -> Z.testbit n i = false.
Proof.
  intros Hn Hp. destruct (decide (n = 0)) as [->|]; [apply Z.bits_0|].
  apply Z.bits_above_log2; [lia|].
  apply Z.lt_le_trans with p; [|lia]. apply Z.log2_lt_pow2; lia.
Qed.

Lemma lxor_words a b c d :
  0 <= b < 2 ^ 32 -> 0 <= d < 2 ^ 32 ->
  Z.lxor (a * 2 ^ 32 + b) (c * 2 ^ 32 + d) = Z.lxor a c * 2 ^ 32 + Z.lxor b d.
Proof.
  intros Hb Hd.
  assert (0 <= Z.lxor b d < 2 ^ 32) as Hbd.
  { rewrite <- (Z.mod_small b (2 ^ 32)), <- (Z.mod_small d (2 ^ 32)) by lia.
    fold (ToUint32 b) (ToUint32 d). rewrite <- ToUint32_lxor. apply ToUint32_range. }
  rewrite <- !lor_shiftl_add by lia.
  apply Z.bits_inj'. intros i Hi.
  rewrite !Z.lxor_spec, !Z.lor_spec, !Z.shiftl_spec, !Z.lxor_spec by lia.
  destruct (Z_lt_le_dec i 32).
  - rewrite !(Z.testbit_neg_r _ (i - 32)) by lia. done.
  - rewrite (testbit_above_pow2 b 32 i), (testbit_above_pow2 d 32 i) by lia.
    by rewrite !orb_false_r.
Qed.

Lemma x64Xor_spec m n : U64 (x64Xor m n) = Z.lxor (U64 m) (U64 n).
Proof.
  unfold x64Xor, U64. cbn [w0 w1]. rewrite !ToUint32_js_xor.
  symmetry. apply lxor_words; apply ToUint32_range.
Qed.

Lemma x64LeftShift_spec m bits :
  0 < bits < 64 ->
  U64 (x64LeftShift m bits) = (ToUint32 (w1 m) * 2 ^ bits) mod 2 ^ 64.
Proof.
  intros Hb. unfold x64LeftShift, U64. rewrite (Z.rem_small bits 64) by lia.
  pose proof (ToUint32_range (w1 m)) as H1.
  destruct (Z.eqb_spec bits 0) as [E0|E0]; [lia|].
  destruct (Z.ltb_spec bits 32) as [Elt|Elt]; cbn [w0 w1].
  - rewrite js_shru_spec, ToUint32_js_shl by lia.
    assert (0 <= ToUint32 (w1 m) / 2 ^ (32 - bits) < 2 ^ 32).
    { split; [apply Z.div_pos; lia|]. apply Z.div_lt_upper_bound; [lia|].
      assert (1 <= 2 ^ (32 - bits)) by (apply (Z.pow_le_mono_r 2 0); lia). nia. }
    rewrite (ToUint32_small (_ / _)) by done.
    generalize dependent (ToUint32 (w1 m)). intros lo Hlo _. clear E0.
    enum_bits bits solve_shift_case.
  - rewrite ToUint32_js_shl, (ToUint32_small 0) by lia.
    generalize dependent (ToUint32 (w1 m)). intros lo Hlo. clear E0.
    enum_bits bits solve_shift_case.
Qed.

(** Shifting a byte by at most 24 bits leaves the high word empty. *)
Lemma x64LeftShift_w0_byte m bits :
  0 <= w1 m < 256 -> 0 < bits <= 24 -> ToUint32 (w0 (x64LeftShift m bits)) = 0.
Proof.
  intros Hbyte Hb. unfold x64LeftShift. rewrite (Z.rem_small bits 64) by lia.
  destruct (Z.eqb_spec bits 0) as [E0|E0]; [lia|].
  destruct (Z.ltb_spec bits 32) as [Elt|Elt]; [|lia]. cbn [w0].
  rewrite js_shru_spec, (ToUint32_small (w1 m)) by lia.
  assert (2 ^ 8 <= 2 ^ (32 - bits)) by (apply Z.pow_le_mono_r; lia).
  rewrite Z.div_small by lia. done.
Qed.

Lemma U64_C1 : U64 C1 = c1. Proof. reflexivity. Qed.
Lemma U64_C2 : U64 C2 = c2. Proof. reflexivity. Qed.
Lemma U64_M_1 : U64 M_1 = 5. Proof. reflexivity. Qed.
Lemma U64_N1 : U64 N1 = 0x52dce729. Proof. reflexivity. Qed.
Lemma U64_N2 : U64 N2 = 0x38495ab5. Proof. reflexivity. Qed.
Lemma U64_F1 : U64 F1 = 0xff51afd7ed558ccd. Proof. reflexivity. Qed.
Lemma U64_F2 : U64 F2 = 0xc4ceb9fe1a85ec53. Proof. reflexivity. Qed.

(** [[0, h[0] >>> 1]] is [h >> 33]. *)
Lemma U64_shifted h w : U64 (mk64 w (js_shru (w0 h) 1)) = ToUint32 w * 2 ^ 32 + Z.shiftr (U64 h) 33.
Proof.
  unfold U64. cbn [w0 w1]. rewrite js_shru_spec, Z.shiftr_div_pow2 by lia.
  pose proof (ToUint32_range (w0 h)). pose proof (ToUint32_range (w1 h)).
  rewrite (ToUint32_small (_ / _)) by (Z.div_mod_to_equations; lia).
  f_equal. Z.div_mod_to_equations; lia.
Qed.

Lemma x64Fmix_spec h : U64 (x64Fmix h) = fmix64 (U64 h).
Proof.
  unfold x64Fmix, fmix64, wrap64. cbn [w0].
  repeat rewrite ?x64Xor_spec, ?x64Multiply_spec, ?U64_shifted, ?U64_F1, ?U64_F2.
  change (ToUint32 0 * 2 ^ 32) with 0. by rewrite !Z.add_0_l.
Qed.

Lemma byte_at_range key n : bytes_ok key -> 0 <= byte_at key n < 256.
Proof.
  intros Hk. unfold byte_at. destruct (key !! n) as [b|] eqn:E; simpl; [|lia].
  by apply (Forall_lookup_1 _ _ _ _ Hk E).
Qed.

Lemma key_at_byte_at key i n : Z.to_nat i = n -> key_at key i = byte_at key n.
Proof. intros <-. done. Qed.

Lemma lor_add_r l h b :
  0 <= b -> 0 <= l < 2 ^ b -> Z.lor l (h * 2 ^ b) = l + h * 2 ^ b.
Proof.
  intros Hb Hl. rewrite Z.lor_comm, Z.add_comm, <- lor_shiftl_add by lia.
  by rewrite Z.shiftl_mul_pow2 by lia.
Qed.

(** [b0 | (b1 << 8) | (b2 << 16) | (b3 << 24)] is the little-endian word. *)
Lemma ToUint32_le_word b0 b1 b2 b3 :
  0 <= b0 < 256 -> 0 <= b1 < 256 -> 0 <= b2 < 256 -> 0 <= b3 < 256 ->
  ToUint32 (js_or (js_or (js_or b0 (js_shl b1 8)) (js_shl b2 16)) (js_shl b3 24))
  = b0 + b1 * 2 ^ 8 + b2 * 2 ^ 16 + b3 * 2 ^ 24.
Proof.
  intros H0 H1 H2 H3.
  rewrite !ToUint32_js_or, !ToUint32_js_shl by lia.
  rewrite !ToUint32_small by lia.
  rewrite !Z.mod_small by lia.
  rewrite (lor_add_r b0 b1 8), (lor_add_r _ b2 16), (lor_add_r _ b3 24) by lia.
  done.
Qed.

Lemma block_word_lo key idx :
  bytes_ok key ->
  let i := Z.of_nat (16 * idx) in
  U64 (mk64
         (js_or (js_or (js_or (key_at key (i + 4)) (js_shl (key_at key (i + 5)) 8))
                       (js_shl (key_at key (i + 6)) 16))
                (js_shl (key_at key (i + 7)) 24))
         (js_or (js_or (js_or (key_at key i) (js_shl (key_at key (i + 1)) 8))
                       (js_shl (key_at key (i + 2)) 16))
                (js_shl (key_at key (i + 3)) 24)))
  = getblock64 key (idx * 2 + 0).
Proof.
  intros Hk i. unfold U64, getblock64. cbn [w0 w1].
  rewrite (key_at_byte_at key i (8 * (idx * 2 + 0))) by lia.
  rewrite (key_at_byte_at key (i + 1) (8 * (idx * 2 + 0) + 1)) by lia.
  rewrite (key_at_byte_at key (i + 2) (8 * (idx * 2 + 0) + 2)) by lia.
  rewrite (key_at_byte_at key (i + 3) (8 * (idx * 2 + 0) + 3)) by lia.
  rewrite (key_at_byte_at key (i + 4) (8 * (idx * 2 + 0) + 4)) by lia.
  rewrite (key_at_byte_at key (i + 5) (8 * (idx * 2 + 0) + 5)) by lia.
  rewrite (key_at_byte_at key (i + 6) (8 * (idx * 2 + 0) + 6)) by lia.
  rewrite (key_at_byte_at key (i + 7) (8 * (idx * 2 + 0) + 7)) by lia.
  rewrite !ToUint32_le_word by (by apply byte_at_range). lia.
Qed.

Lemma block_word_hi key idx :
  bytes_ok key ->
  let i := Z.of_nat (16 * idx) in
  U64 (mk64
         (js_or (js_or (js_or (key_at key (i + 12)) (js_shl (key_at key (i + 13)) 8))
                       (js_shl (key_at key (i + 14)) 16))
                (js_shl (key_at key (i + 15)) 24))
         (js_or (js_or (js_or (key_at key (i + 8)) (js_shl (key_at key (i + 9)) 8))
                       (js_shl (key_at key (i + 10)) 16))
                (js_shl (key_at key (i + 11)) 24)))
  = getblock64 key (idx * 2 + 1).
Proof.
  intros Hk i. unfold U64, getblock64. cbn [w0 w1].
  rewrite (key_at_byte_at key (i + 8) (8 * (idx * 2 + 1))) by lia.
  rewrite (key_at_byte_at key (i + 9) (8 * (idx * 2 + 1) + 1)) by lia.
  rewrite (key_at_byte_at key (i + 10) (8 * (idx * 2 + 1) + 2)) by lia.
  rewrite (key_at_byte_at key (i + 11) (8 * (idx * 2 + 1) + 3)) by lia.
  rewrite (key_at_byte_at key (i + 12) (8 * (idx * 2 + 1) + 4)) by lia.
  rewrite (key_at_byte_at key (i + 13) (8 * (idx * 2 + 1) + 5)) by lia.
  rewrite (key_at_byte_at key (i + 14) (8 * (idx * 2 + 1) + 6)) by lia.
  rewrite (key_at_byte_at key (i + 15) (8 * (idx * 2 + 1) + 7)) by lia.
  rewrite !ToUint32_le_word by (by apply byte_at_range). lia.
Qed.

Lemma x64_mix_k1 k : U64 (x64Multiply (x64Rotl (x64Multiply k C1) 31) C2) = mix_k1 (U64 k).
Proof.
  unfold mix_k1, wrap64.
  by rewrite x64Multiply_spec, x64Rotl_spec, x64Multiply_spec, U64_C1, U64_C2 by lia.
Qed.

Lemma x64_mix_k2 k : U64 (x64Multiply (x64Rotl (x64Multiply k C2) 33) C1) = mix_k2 (U64 k).
Proof.
  unfold mix_k2, wrap64.
  by rewrite x64Multiply_spec, x64Rotl_spec, x64Multiply_spec, U64_C1, U64_C2 by lia.
Qed.

Lemma x64_mul_add h n c :
  U64 n = c -> U64 (x64Add (x64Multiply h M_1) n) = wrap64 (U64 h * 5 + c).
Proof.
  intros <-. unfold wrap64.
  rewrite x64Add_spec, x64Multiply_spec, U64_M_1.
  apply Zplus_mod_idemp_l.
Qed.

Lemma x64_h1_step h1 h2 k1 :
  U64 (x64Add (x64Multiply (x64Add (x64Rotl (x64Xor h1
         (x64Multiply (x64Rotl (x64Multiply k1 C1) 31) C2)) 27) h2) M_1) N1)
  = wrap64 (wrap64 (ROTL64 (Z.lxor (U64 h1) (mix_k1 (U64 k1))) 27 + U64 h2) * 5 + 0x52dce729).
Proof.
  rewrite (x64_mul_add _ _ _ U64_N1), x64Add_spec, x64Rotl_spec, x64Xor_spec by lia.
  by rewrite x64_mix_k1.
Qed.

Lemma x64_h2_step h1 h2 k2 :
  U64 (x64Add (x64Multiply (x64Add (x64Rotl (x64Xor h2
         (x64Multiply (x64Rotl (x64Multiply k2 C2) 33) C1)) 31) h1) M_1) N2)
  = wrap64 (wrap64 (ROTL64 (Z.lxor (U64 h2) (mix_k2 (U64 k2))) 31 + U64 h1) * 5 + 0x38495ab5).
Proof.
  rewrite (x64_mul_add _ _ _ U64_N2), x64Add_spec, x64Rotl_spec, x64Xor_spec by lia.
  by rewrite x64_mix_k2.
Qed.

(** The block loop runs [n] more blocks and stops at [bytes]. *)
Lemma x64hash128_loop_spec key :
  bytes_ok key ->
  forall n fuel idx h1 h2,
    (n <= fuel)%nat ->
    exists h1' h2',
      x64hash128_loop fuel key (Z.of_nat (16 * (idx + n))) (Z.of_nat (16 * idx)) h1 h2
      = (Z.of_nat (16 * (idx + n)), h1', h2')
      /\ (U64 h1', U64 h2') = body n key idx (U64 h1) (U64 h2).
Proof.
  intros Hk n. induction n as [|n IH]; intros fuel idx h1 h2 Hfuel.
  - exists h1, h2. replace (idx + 0)%nat with idx by lia. split; [|done].
    destruct fuel; simpl; [done|]. by rewrite Z.ltb_irrefl.
  - destruct fuel as [|fuel]; [lia|].
    cbn [x64hash128_loop body].
    destruct (Z.ltb_spec (Z.of_nat (16 * idx)) (Z.of_nat (16 * (idx + S n)))); [|lia].
    replace (Z.of_nat (16 * idx) + 16) with (Z.of_nat (16 * S idx)) by lia.
    replace (idx + S n)%nat with (S idx + n)%nat by lia.
    match goal with
    | |- context [x64hash128_loop fuel key _ _ ?a ?b] =>
        destruct (IH fuel (S idx) a b) as (h1' & h2' & Hloop & Hbody); [lia|]
    end.
    exists h1', h2'. split; [exact Hloop|]. rewrite Hbody. clear Hloop Hbody IH.
    rewrite x64_h2_step, x64_h1_step.
    by rewrite (block_word_lo key idx Hk), (block_word_hi key idx Hk).
Qed.
End U32Facts.

(** ** The tail switch and the two lanes *)

Section TailFacts.
Local Open Scope Z_scope.
Import Murmur3Ref.

Lemma shiftl_byte_small b bits :
  0 <= b < 256 -> 0 <= bits <= 56 -> (b * 2 ^ bits) mod 2 ^ 64 = Z.shiftl b bits.
Proof.
  intros Hb Hs. rewrite Z.shiftl_mul_pow2 by lia. apply Z.mod_small.
  assert (0 < 2 ^ bits <= 2 ^ 56) by (split; [lia|apply Z.pow_le_mono_r; lia]). nia.
Qed.

(** A shifting case of the tail switch against [tail_xor].  The high word of
    [val] is known to be empty when no case has run yet and after a shift by
    at most 24 bits. *)
Lemma tail_case_sim (c rem : nat) label k val b bits tail :
  label = Z.of_nat c -> b = byte_at tail (c - 1) ->
  0 <= b < 256 -> 0 < bits <= 56 ->
  (Z.of_nat rem <= label -> ToUint32 (w0 val) = 0) ->
  exists k' val',
    tail_case label (Z.of_nat rem) k val b bits = (k', val')
    /\ U64 k' = tail_xor c rem (U64 k) tail bits
    /\ (Z.of_nat rem < label \/ bits <= 24 -> ToUint32 (w0 val') = 0).
Proof.
  intros -> -> Hb Hs Hval. unfold tail_case, tail_xor.
  destruct (Z.leb_spec (Z.of_nat c) (Z.of_nat rem)) as [Hle|Hgt].
  - destruct (Nat.leb_spec c rem); [|lia].
    cbv zeta. do 2 eexists. split; [reflexivity|]. split.
    + rewrite x64Xor_spec, x64LeftShift_spec by lia. cbn [w1].
      by rewrite ToUint32_small, shiftl_byte_small by lia.
    + intros [?|?]; [lia|]. apply x64LeftShift_w0_byte; [cbn [w1]|]; lia.
  - destruct (Nat.leb_spec c rem); [lia|].
    do 2 eexists. split; [reflexivity|]. split; [done|].
    intros _. apply Hval. lia.
Qed.

(** The case without a shift: [val[1] = b; x64Xor(k, val)]. *)
Lemma tail_last_sim k val b :
  0 <= b < 256 -> ToUint32 (w0 val) = 0 ->
  U64 (x64Xor k (mk64 (w0 val) b)) = Z.lxor (U64 k) (Z.shiftl b 0).
Proof.
  intros Hb Hval. rewrite x64Xor_spec. unfold U64 at 2. cbn [w0 w1].
  by rewrite Hval, ToUint32_small, Z.shiftl_0_r by lia.
Qed.

Lemma tail_xor_on c rem k tail sh :
  (c <= rem)%nat -> tail_xor c rem k tail sh = Z.lxor k (Z.shiftl (byte_at tail (c - 1)) sh).
Proof. intros H. unfold tail_xor. by destruct (Nat.leb_spec c rem); [|lia]. Qed.

Ltac tail_step c tail Hinv :=
  lazymatch goal with
  | |- context [tail_case ?l (Z.of_nat ?r) ?k ?v ?b ?s] =>
      let k' := fresh "k" in let v' := fresh "val" in
      let E := fresh "E" in let Hk := fresh "Hk" in let Hv := fresh "Hv" in
      destruct (tail_case_sim c r l k v b s tail) as (k' & v' & E & Hk & Hv);
      [ reflexivity | reflexivity | by apply byte_at_range | lia
      | intros; apply Hinv; lia | ];
      rewrite E; clear E; lazy beta iota;
      rewrite <- Hk; clear Hk Hinv; rename Hv into Hinv
  end.

Lemma x64hash128_tail_spec key i rem h1 h2 tail :
  bytes_ok tail ->
  (forall (j : nat) z, z = i + Z.of_nat j -> key_at key z = byte_at tail j) ->
  exists h1' h2',
    x64hash128_tail (Z.of_nat rem) key i h1 h2 = (h1', h2')
    /\ (U64 h1', U64 h2') = tail_mix tail rem (U64 h1) (U64 h2).
Proof.
  intros Htail Hkey. unfold x64hash128_tail, tail_mix.
  rewrite (Hkey 14%nat (i + 14)), (Hkey 13%nat (i + 13)), (Hkey 12%nat (i + 12)),
    (Hkey 11%nat (i + 11)), (Hkey 10%nat (i + 10)), (Hkey 9%nat (i + 9)),
    (Hkey 8%nat (i + 8)), (Hkey 7%nat (i + 7)), (Hkey 6%nat (i + 6)),
    (Hkey 5%nat (i + 5)), (Hkey 4%nat (i + 4)), (Hkey 3%nat (i + 3)),
    (Hkey 2%nat (i + 2)), (Hkey 1%nat (i + 1)), (Hkey 0%nat i) by lia.
  pose proof (byte_at_range tail 8 Htail) as Hb8.
  pose proof (byte_at_range tail 0 Htail) as Hb0.
  change (tail_xor 15 rem 0 tail 48) with (tail_xor 15 rem (U64 (mk64 0 0)) tail 48).
  change (tail_xor 8 rem 0 tail 56) with (tail_xor 8 rem (U64 (mk64 0 0)) tail 56).
  assert (0 <= 0 -> ToUint32 (w0 (mk64 0 0)) = 0) as Hinv by done.
  tail_step 15%nat tail Hinv. tail_step 14%nat tail Hinv. tail_step 13%nat tail Hinv.
  tail_step 12%nat tail Hinv. tail_step 11%nat tail Hinv. tail_step 10%nat tail Hinv.
  assert (ToUint32 (w0 val4) = 0) as Hhi by (apply Hinv; lia). clear Hinv.
  destruct (Z.leb_spec 9 (Z.of_nat rem)), (Nat.leb_spec 9 rem); try lia; lazy beta iota;
    [rewrite (tail_xor_on 9 rem) by lia|].
  - assert (0 <= 0 -> ToUint32 (w0 (mk64 (w0 val4) (byte_at tail 8))) = 0) as Hinv by done.
    tail_step 8%nat tail Hinv. tail_step 7%nat tail Hinv. tail_step 6%nat tail Hinv.
    tail_step 5%nat tail Hinv. tail_step 4%nat tail Hinv. tail_step 3%nat tail Hinv.
    tail_step 2%nat tail Hinv.
    destruct (Z.leb_spec 1 (Z.of_nat rem)), (Nat.leb_spec 1 rem); try lia; lazy beta iota.
    rewrite (tail_xor_on 1 rem) by lia.
    do 2 eexists. split; [reflexivity|].
    rewrite !x64Xor_spec, x64_mix_k1, x64_mix_k2, !tail_last_sim; try done.
    apply Hinv; lia.
  - assert (0 <= 0 -> ToUint32 (w0 val4) = 0) as Hinv by done.
    tail_step 8%nat tail Hinv. tail_step 7%nat tail Hinv. tail_step 6%nat tail Hinv.
    tail_step 5%nat tail Hinv. tail_step 4%nat tail Hinv. tail_step 3%nat tail Hinv.
    tail_step 2%nat tail Hinv.
    destruct (Z.leb_spec 1 (Z.of_nat rem)), (Nat.leb_spec 1 rem); try lia; lazy beta iota.
    + rewrite (tail_xor_on 1 rem) by lia.
      do 2 eexists. split; [reflexivity|].
      rewrite !x64Xor_spec, x64_mix_k1, !tail_last_sim; try done.
      apply Hinv; lia.
    + do 2 eexists. split; reflexivity.
Qed.

Lemma bytes_ok_drop key n : bytes_ok key -> bytes_ok (drop n key).
Proof. apply Forall_drop. Qed.

(** The words [h1], [h2] left by the tuple arithmetic are the two lanes of
    the reference hash. *)
Lemma x64hash128_words_spec key seed :
  bytes_ok key -> Z.of_nat (length key) < 2 ^ 32 ->
  exists h1 h2,
    x64hash128_words key seed = (h1, h2)
    /\ (U64 h1, U64 h2) = MurmurHash3_x64_128 key (ToUint32 seed).
Proof.
  intros Hk Hlen. unfold x64hash128_words, MurmurHash3_x64_128. cbn [w1].
  set (len := length key) in *.
  assert (Z.of_nat len mod 16 = Z.of_nat (len mod 16)) as -> by (rewrite Nat2Z.inj_mod; done).
  assert (Z.of_nat len - Z.of_nat (len mod 16) = Z.of_nat (16 * (0 + len / 16))) as ->.
  { pose proof (Nat.div_mod_eq len 16). lia. }
  destruct (x64hash128_loop_spec key Hk (len / 16) len 0 (mk64 0 seed) (mk64 0 seed))
    as (h1a & h2a & Hloop & Hbody).
  { pose proof (Nat.div_mod_eq len 16). lia. }
  change (Z.of_nat (16 * 0)) with 0 in Hloop. rewrite Hloop. clear Hloop.
  replace (U64 (mk64 0 seed)) with (ToUint32 seed) in Hbody
    by (unfold U64; cbn [w0 w1]; change (ToUint32 0) with 0; lia).
  rewrite <- Hbody. clear Hbody.
  destruct (x64hash128_tail_spec key (Z.of_nat (16 * (0 + len / 16))) (len mod 16) h1a h2a
              (drop (len / 16 * 16) key)) as (h1b & h2b & -> & Htail).
  { by apply bytes_ok_drop. }
  { intros j z ->. unfold key_at, byte_at. rewrite lookup_drop. do 2 f_equal. lia. }
  rewrite <- Htail. clear Htail.
  do 2 eexists. split; [reflexivity|].
  assert (U64 (mk64 0 (Z.of_nat len)) = Z.of_nat len) as Hl.
  { unfold U64. cbn [w0 w1]. rewrite (ToUint32_small (Z.of_nat len)) by lia. done. }
  unfold wrap64.
  repeat rewrite ?x64Add_spec, ?x64Fmix_spec, ?x64Xor_spec, ?Hl.
  reflexivity.
Qed.
End TailFacts.

(** ** The hexadecimal rendering *)

Section HexFacts.
Local Open Scope Z_scope.
Import Murmur3Ref.

Lemma length_hex_fixed d n : length (hex_fixed d n) = d.
Proof.
  revert n. induction d as [|d IH]; intros n; [done|].
  cbn [hex_fixed]. rewrite length_app, IH. simpl. lia.
Qed.

Lemma hexDigit_lower d : 0 <= d < 16 -> is_lower_hex (hexDigit d) = true.
Proof.
  intros Hd. unfold is_lower_hex, hexDigit.
  destruct (Z.ltb_spec d 10).
  - apply orb_true_iff. left. apply andb_true_iff. split; apply N.leb_le; lia.
  - apply orb_true_iff. right. apply andb_true_iff. split; apply N.leb_le; lia.
Qed.

Lemma hex_fixed_lower d n : Forall (fun c => is_lower_hex c = true) (hex_fixed d n).
Proof.
  revert n. induction d as [|d IH]; intros n; [constructor|].
  cbn [hex_fixed]. apply Forall_app. split; [apply IH|].
  repeat constructor. apply hexDigit_lower. apply Z.mod_pos_bound. lia.
Qed.

Lemma hex_fixed_0 d : hex_fixed d 0 = replicate d 48%N.
Proof.
  induction d as [|d IH]; [done|]. cbn [hex_fixed].
  change (0 / 16) with 0. rewrite IH. change (hexDigit (0 mod 16)) with 48%N.
  by rewrite <- replicate_S_end.
Qed.

Lemma hex_fixed_app d e n :
  hex_fixed (d + e) n = hex_fixed d (n / 16 ^ Z.of_nat e) ++ hex_fixed e n.
Proof.
  revert n. induction e as [|e IH]; intros n.
  - rewrite Nat.add_0_r, Z.div_1_r. cbn [hex_fixed]. by rewrite app_nil_r.
  - rewrite Nat.add_succ_r. cbn [hex_fixed]. rewrite IH, app_assoc.
    do 3 f_equal. rewrite Z.div_div by lia. f_equal.
    rewrite Nat2Z.inj_succ, Z.pow_succ_r by lia. done.
Qed.

Lemma hex_fixed_low e k n :
  hex_fixed e (k * 16 ^ Z.of_nat e + n) = hex_fixed e n.
Proof.
  revert k n. induction e as [|e IH]; intros k n; [done|].
  cbn [hex_fixed].
  rewrite Nat2Z.inj_succ, Z.pow_succ_r by lia.
  replace (k * (16 * 16 ^ Z.of_nat e) + n) with (n + (k * 16 ^ Z.of_nat e) * 16) by lia.
  rewrite Z.div_add, Z_mod_plus_full by lia.
  by rewrite Z.add_comm, IH.
Qed.

(** The two words of a tuple print as the 16 digits of the 64-bit value. *)
Lemma hex_fixed_U64 h :
  hex_fixed 8 (ToUint32 (w0 h)) ++ hex_fixed 8 (ToUint32 (w1 h)) = hex_fixed 16 (U64 h).
Proof.
  change 16%nat with (8 + 8)%nat. rewrite hex_fixed_app. unfold U64.
  pose proof (ToUint32_range (w1 h)).
  change (16 ^ Z.of_nat 8) with (2 ^ 32). f_equal.
  - f_equal. rewrite Z.div_add_l, Z.div_small by lia. lia.
  - symmetry. apply (hex_fixed_low 8).
Qed.

(** [toString(16)] prints the fixed-width digits without their leading zeros. *)
Lemma toString16_digits_spec d :
  forall n f acc,
    0 <= n < 16 ^ Z.of_nat (S d) -> n < 16 ^ Z.of_nat (S f) ->
    exists k, hex_fixed (S d) n ++ acc = replicate k 48%N ++ toString16_digits (S f) n acc.
Proof.
  induction d as [|d IH]; intros n f acc Hn Hf.
  - exists 0%nat. cbn [hex_fixed toString16_digits replicate app].
    change (16 ^ Z.of_nat 1) with 16 in Hn.
    rewrite Z.div_small, Z.eqb_refl by lia. done.
  - cbn [hex_fixed toString16_digits].
    rewrite Nat2Z.inj_succ, Z.pow_succ_r in Hn, Hf by lia.
    destruct (Z.eqb_spec (n / 16) 0) as [E|E].
    + exists (S d). rewrite E. change (0 / 16) with 0. change (0 mod 16) with 0.
      rewrite hex_fixed_0.
      change (hexDigit 0) with 48%N.
      rewrite <- !app_assoc. cbn [app].
      change (48%N :: hexDigit (n mod 16) :: acc)
        with ([48%N] ++ hexDigit (n mod 16) :: acc).
      rewrite app_assoc, <- replicate_S_end. done.
    + destruct f as [|f].
      { change (16 ^ Z.of_nat 0) with 1 in Hf. exfalso. apply E. apply Z.div_small.
        destruct Hn as [Hn _]. lia. }
      destruct (IH (n / 16) f (hexDigit (n mod 16) :: acc)) as [k Hk].
      * split; [apply Z.div_pos; lia|]. apply Z.div_lt_upper_bound; lia.
      * apply Z.div_lt_upper_bound; lia.
      * exists k. rewrite <- Hk. cbn [hex_fixed]. by rewrite <- !app_assoc.
Qed.

Lemma Number_toString16_spec n :
  0 <= n < 2 ^ 32 ->
  exists k, hex_fixed 8 n = replicate k 48%N ++ Number_toString16 n.
Proof.
  intros Hn. unfold Number_toString16.
  destruct (toString16_digits_spec 7 n (Z.to_nat (Z.log2 n)) []) as [k Hk].
  - change (16 ^ Z.of_nat 8) with (2 ^ 32). lia.
  - rewrite Nat2Z.inj_succ, Z2Nat.id by apply Z.log2_nonneg.
    destruct (decide (n = 0)) as [->|]; [done|].
    apply Z.lt_le_trans with (2 ^ Z.succ (Z.log2 n)); [apply Z.log2_spec; lia|].
    apply Z.pow_le_mono_l. lia.
  - exists k. by rewrite app_nil_r in Hk.
Qed.

Lemma hex8_spec w : hex8 w = hex_fixed 8 (ToUint32 w).
Proof.
  unfold hex8, String_slice_last. rewrite js_shru_spec, Z.div_1_r by lia.
  destruct (Number_toString16_spec (ToUint32 w) (ToUint32_range w)) as [k Hk].
  pose proof (length_hex_fixed 8 (ToUint32 w)) as Hlen.
  rewrite Hk, length_app, length_replicate in Hlen.
  rewrite Hk. set (ts := Number_toString16 _) in *.
  change (str "00000000") with (replicate 8 48%N).
  replace (replicate 8 48%N) with (replicate (length ts) 48%N ++ replicate k 48%N)
    by (rewrite <- replicate_add; f_equal; lia).
  rewrite <- app_assoc.
  replace (length (replicate (length ts) 48%N ++ replicate k 48%N ++ ts) - 8)%nat
    with (length (replicate (length ts) 48%N))
    by (rewrite !length_app, !length_replicate; lia).
  by rewrite drop_app_length.
Qed.

Lemma x64hash128_render h1 h2 :
  hex8 (w0 h1) ++ hex8 (w1 h1) ++ hex8 (w0 h2) ++ hex8 (w1 h2)
  = hex128 (U64 h1, U64 h2).
Proof.
  rewrite !hex8_spec. unfold hex128. cbn [fst snd].
  by rewrite app_assoc, !hex_fixed_U64.
Qed.

Lemma hex128_length h : length (hex128 h) = 32%nat.
Proof. unfold hex128. by rewrite length_app, !length_hex_fixed. Qed.

Lemma hex128_lower h : Forall (fun c => is_lower_hex c = true) (hex128 h).
Proof. unfold hex128. apply Forall_app. split; apply hex_fixed_lower. Qed.

End HexFacts.

(** ** UTF-8 bytes and the hash theorem *)

Section UTF8Facts.
Import Murmur3Ref.

Lemma utf8_of_scalar_bytes cp : bytes_ok (utf8_of_scalar cp).
Proof.
  unfold utf8_of_scalar, bytes_ok.
  destruct (N.ltb_spec cp 0x80); [|destruct (N.ltb_spec cp 0x800);
    [|destruct (N.ltb_spec cp 0x10000)]];
    cbn [fmap list_fmap]; repeat (apply Forall_cons_2; [rewrite ?N2Z.inj_add, ?N2Z.inj_mod, ?N2Z.inj_div; Z.div_mod_to_equations; lia|]);
    apply Forall_nil_2.
Qed.

Lemma TextEncoder_encode_bytes s : bytes_ok (TextEncoder_encode s).
Proof.
  unfold bytes_ok.
  induction s as [s IH] using (induction_ltof1 _ length).
  unfold ltof in IH.
  destruct s as [|c rest]; [constructor|]. cbn [TextEncoder_encode].
  destruct (is_lead_surrogate c).
  - destruct rest as [|d rest']; [apply utf8_of_scalar_bytes|].
    destruct (is_trail_surrogate d); apply Forall_app; split;
      try apply utf8_of_scalar_bytes; apply IH; simpl; lia.
  - destruct (is_trail_surrogate c); apply Forall_app; split;
      try apply utf8_of_scalar_bytes; apply IH; simpl; lia.
Qed.

(** On a string of ASCII codes the encoder returns the codes themselves. *)
Lemma TextEncoder_encode_ascii s :
  Forall (fun c => (c <= 127)%N) s -> TextEncoder_encode s = Z.of_N <$> s.
Proof.
  induction 1 as [|c rest Hc _ IH]; [done|]. cbn [TextEncoder_encode].
  assert (is_lead_surrogate c = false) as ->.
  { unfold is_lead_surrogate. apply andb_false_iff. left. apply N.leb_gt. lia. }
  assert (is_trail_surrogate c = false) as ->.
  { unfold is_trail_surrogate. apply andb_false_iff. left. apply N.leb_gt. lia. }
  rewrite IH. unfold utf8_of_scalar.
  destruct (N.ltb_spec c 0x80); [done|lia].
Qed.

Lemma getUTF8Bytes_loop_spec input :
  forall fuel i,
    (i + fuel = length input)%nat ->
    Forall (fun c => (c <= 127)%N) (take i input) ->
    getUTF8Bytes_loop fuel input i
      ((Z.of_N <$> take i input) ++ replicate (length input - i) 0%Z)
    = TextEncoder_encode input.
Proof.
  induction fuel as [|fuel IH]; intros i Hi Hascii.
  - cbn [getUTF8Bytes_loop]. rewrite Nat.add_0_r in Hi. subst i.
    rewrite firstn_all in *. rewrite Nat.sub_diag, app_nil_r.
    by rewrite TextEncoder_encode_ascii.
  - cbn [getUTF8Bytes_loop].
    destruct (_ !! _) as [c|] eqn:Ec.
    2:{ apply lookup_ge_None in Ec. lia. }
    destruct (N.ltb_spec 127 c) as [Hc|Hc]; [done|].
    rewrite <- (IH (S i)); [|lia|].
    + f_equal. rewrite (take_S_r _ _ _ Ec), fmap_app.
      replace (length input - i)%nat with (S (length input - S i)) by lia.
      cbn [replicate].
      rewrite insert_app_r_alt by (rewrite length_fmap, length_take; lia).
      rewrite length_fmap, length_take.
      replace (i - i `min` length input)%nat with 0%nat by lia.
      cbn [fmap list_fmap]. by rewrite <- app_assoc.
    + rewrite (take_S_r _ _ _ Ec). apply Forall_app. split; [done|]. by constructor.
Qed.

(** The ASCII fast path of [getUTF8Bytes] agrees with the encoder. *)
Lemma getUTF8Bytes_spec input : getUTF8Bytes input = TextEncoder_encode input.
Proof.
  unfold getUTF8Bytes.
  pose proof (getUTF8Bytes_loop_spec input (length input) 0) as H.
  rewrite take_0, Nat.sub_0_r in H. apply H; [lia|constructor].
Qed.

End UTF8Facts.

Section HashTheorems.
Local Open Scope Z_scope.
Import Murmur3Ref.

Lemma x64hash128_length input seed : length (x64hash128 input seed) = 32%nat.
Proof.
  unfold x64hash128. destruct (x64hash128_words _ _) as [h1 h2].
  rewrite x64hash128_render. apply hex128_length.
Qed.

Lemma x64hash128_lower input seed :
  Forall (fun c => is_lower_hex c = true) (x64hash128 input seed).
Proof.
  unfold x64hash128. destruct (x64hash128_words _ _) as [h1 h2].
  rewrite x64hash128_render. apply hex128_lower.
Qed.

(** C1: for every string whose UTF-8 encoding is shorter than 2^32 bytes (the
    length is kept in one 32-bit word), [x64hash128] with the seed left out
    returns the reference MurmurHash3 x64-128 of the UTF-8 bytes with seed 0,
    [h1] followed by [h2], as exactly 32 lowercase hexadecimal characters. *)
Theorem x64hash128_is_murmur3 (input : jsstring) :
  Z.of_nat (length (TextEncoder_encode input)) < 2 ^ 32 ->
  x64hash128 input None = hex128 (MurmurHash3_x64_128 (TextEncoder_encode input) 0)
  /\ length (x64hash128 input None) = 32%nat
  /\ Forall (fun c => is_lower_hex c = true) (x64hash128 input None).
Proof.
  intros Hlen. split; [|split; [apply x64hash128_length|apply x64hash128_lower]].
  unfold x64hash128. rewrite getUTF8Bytes_spec.
  destruct (x64hash128_words_spec (TextEncoder_encode input) 0
              (TextEncoder_encode_bytes input) Hlen) as (h1 & h2 & -> & Href).
  rewrite x64hash128_render. by rewrite Href.
Qed.

Lemma x64hash128_is_murmur3_witness :
  Z.of_nat (length (TextEncoder_encode (str "x:error|y:5"))) < 2 ^ 32
  /\ x64hash128 (str "x:error|y:5") None
     = hex128 (MurmurHash3_x64_128 (TextEncoder_encode (str "x:error|y:5")) 0).
Proof.
  assert (Z.of_nat (length (TextEncoder_encode (str "x:error|y:5"))) < 2 ^ 32) as H
    by (vm_compute; reflexivity).
  split; [exact H|]. exact (proj1 (x64hash128_is_murmur3 _ H)).
Defined.

End HashTheorems.

(** ** The canonical string *)

Section CanonicalFacts.

Lemma jsstring_leb_total a b : jsstring_leb a b = true \/ jsstring_leb b a = true.
Proof.
  revert b. induction a as [|x a IH]; intros [|y b]; cbn; auto.
  destruct (N.ltb_spec x y), (N.ltb_spec y x); auto; lia.
Qed.

Lemma jsstring_leb_trans a b c :
  jsstring_leb a b = true -> jsstring_leb b c = true -> jsstring_leb a c = true.
Proof.
  revert b c. induction a as [|x a IH]; intros [|y b] [|z c]; cbn; auto; try done.
  destruct (N.ltb_spec x y), (N.ltb_spec y x), (N.ltb_spec y z), (N.ltb_spec z y),
    (N.ltb_spec x z), (N.ltb_spec z x); try done; try lia.
  apply IH.
Qed.

Lemma jsstring_leb_antisym a b :
  jsstring_leb a b = true -> jsstring_leb b a = true -> a = b.
Proof.
  revert b. induction a as [|x a IH]; intros [|y b]; cbn; try done.
  destruct (N.ltb_spec x y), (N.ltb_spec y x); try done; try lia.
  intros Hab Hba. f_equal; [lia|by apply IH].
Qed.

#[global] Instance jsstring_le_total : Total jsstring_le.
Proof. intros a b. apply jsstring_leb_total. Qed.

#[global] Instance jsstring_le_trans : Transitive jsstring_le.
Proof. intros a b c. apply jsstring_leb_trans. Qed.

#[global] Instance jsstring_le_antisym : AntiSymm eq jsstring_le.
Proof. intros a b. apply jsstring_leb_antisym. Qed.

Lemma Array_sort_sorted l : StronglySorted jsstring_le (Array_sort l).
Proof. apply StronglySorted_merge_sort; apply _. Qed.

Lemma Array_sort_perm l : Array_sort l ≡ₚ l.
Proof. apply merge_sort_Permutation. Qed.

Lemma Object_keys_elem {A} (o : gmap jsstring A) k : k ∈ Object_keys o <-> is_Some (o !! k).
Proof.
  unfold Object_keys. rewrite list_elem_of_fmap. split.
  - intros ([k' v] & -> & Hin). apply elem_of_map_to_list in Hin. by exists v.
  - intros [v Hv]. exists (k, v). split; [done|]. by apply elem_of_map_to_list.
Qed.

Lemma Object_keys_NoDup {A} (o : gmap jsstring A) : NoDup (Object_keys o).
Proof. apply NoDup_fst_map_to_list. Qed.

Lemma sorted_keys_elem (cs : ComponentSet) k :
  k ∈ Array_sort (Object_keys cs) <-> is_Some (cs !! k).
Proof. by rewrite Array_sort_perm, Object_keys_elem. Qed.

Lemma sorted_keys_NoDup (cs : ComponentSet) : NoDup (Array_sort (Object_keys cs)).
Proof. rewrite Array_sort_perm. apply Object_keys_NoDup. Qed.

Lemma join_with_cons sep a b rest :
  join_with sep ((a ++ sep ++ b) :: rest) = a ++ sep ++ join_with sep (b :: rest).
Proof.
  destruct rest as [|r rest]; cbn [join_with]; [done|].
  by rewrite <- !app_assoc.
Qed.

Lemma canonical_loop_nonempty (cs : ComponentSet) keys result :
  result <> [] ->
  Forall (fun k => is_Some (cs !! k)) keys ->
  canonical_loop cs keys result
  = Normal (join_with (str "|") (result :: (canonical_record cs <$> keys))).
Proof.
  intros Hne Hkeys. revert result Hne.
  induction Hkeys as [|k keys [c Hc] _ IH]; intros result Hne; [done|].
  cbn [canonical_loop fmap list_fmap]. rewrite Hc.
  destruct result as [|r0 result]; [done|].
  rewrite IH by (by destruct result).
  f_equal. rewrite join_with_cons. unfold canonical_record, render_component.
  by rewrite Hc.
Qed.

Lemma canonical_loop_spec (cs : ComponentSet) keys :
  Forall (fun k => is_Some (cs !! k)) keys ->
  canonical_loop cs keys [] = Normal (join_with (str "|") (canonical_record cs <$> keys)).
Proof.
  intros Hkeys. destruct Hkeys as [|k keys [c Hc] Hkeys]; [done|].
  cbn [canonical_loop fmap list_fmap]. rewrite Hc. rewrite !app_nil_l.
  rewrite canonical_loop_nonempty; [|by destruct (escapeKey k)|done].
  f_equal. unfold canonical_record, render_component. by rewrite Hc.
Qed.

(** The canonical string is the join of the records of the sorted keys, and
    the canonicalizer never throws. *)
Lemma componentsToCanonicalString_records (cs : ComponentSet) :
  componentsToCanonicalString cs
  = Normal (join_with (str "|") (canonical_record cs <$> Array_sort (Object_keys cs))).
Proof.
  unfold componentsToCanonicalString. apply canonical_loop_spec.
  apply Forall_forall. intros k. apply sorted_keys_elem.
Qed.

End CanonicalFacts.

(** ** Claims about the canonicalizer *)

Section CanonicalTheorems.
Import Murmur3Ref.

Lemma read_name_escapeKey k rest :
  read_name (escapeKey k ++ str ":" ++ rest) = Some (k, rest).
Proof.
  change (str ":" ++ rest) with (58%N :: rest).
  induction k as [|c k IH]; [done|].
  cbn [escapeKey]. unfold is_special, backslash.
  destruct (N.eqb_spec c 92) as [->|H92]; [cbn [orb app read_name N.eqb Pos.eqb]; by rewrite IH|].
  destruct (N.eqb_spec c 58) as [->|H58]; [cbn [orb app read_name N.eqb Pos.eqb]; by rewrite IH|].
  destruct (N.eqb_spec c 124) as [->|H124]; [cbn [orb app read_name N.eqb Pos.eqb]; by rewrite IH|].
  cbn [orb app read_name].
  destruct (N.eqb_spec c 92); [done|]. destruct (N.eqb_spec c 58); [done|].
  destruct (N.eqb_spec c 124); [done|]. by rewrite IH.
Qed.

Lemma escapeKey_plain k : Forall (fun c => is_special c = false) k -> escapeKey k = k.
Proof. induction 1 as [|c k Hc _ IH]; [done|]. cbn [escapeKey]. by rewrite Hc, IH. Qed.

Lemma join_with_last sep parts p :
  exists prefix, join_with sep (parts ++ [p]) = prefix ++ p.
Proof.
  induction parts as [|q parts [prefix IH]]; [by exists []|].
  exists (q ++ sep ++ prefix). cbn [app join_with].
  destruct (parts ++ [p]) eqn:E; [by destruct parts|].
  rewrite IH. by rewrite <- !app_assoc.
Qed.

(** C2, counterexample: the component [a] with the string value ["x|y"] is
    rendered with its bar as it is, so the canonical string is not the one in
    which rendered values are escaped too. *)
Lemma canonical_values_not_escaped :
  componentsToCanonicalString c2_components
  = Normal (str "a:" ++ [34%N] ++ str "x|y" ++ [34%N])
  /\ componentsToCanonicalString c2_components
     <> Normal (canonical_escaping_values c2_components).
Proof. split; [by vm_compute|]. vm_compute. discriminate. Qed.

(** C2, as amended: every colon, bar and backslash of a component name is
    preceded by a backslash, so each record reads back to its name and to the
    rendered component, which is inserted as it was rendered, unescaped. *)
Theorem canonical_names_escaped (cs : ComponentSet) :
  componentsToCanonicalString cs
  = Normal (join_with (str "|") (canonical_record cs <$> Array_sort (Object_keys cs)))
  /\ Forall (fun k =>
       canonical_record cs k
       = flat_map (fun c => if is_special c then [backslash; c] else [c]) k
         ++ str ":" ++ from_option render_component [] (cs !! k)
       /\ read_name (canonical_record cs k)
          = Some (k, from_option render_component [] (cs !! k)))
     (Array_sort (Object_keys cs)).
Proof.
  split; [apply componentsToCanonicalString_records|].
  apply Forall_forall. intros k _. split; [|apply read_name_escapeKey].
  unfold canonical_record. f_equal.
  induction k as [|c k IH]; [done|]. cbn [escapeKey flat_map].
  destruct (is_special c); cbn [app]; by rewrite IH.
Qed.

(** C3: the canonical string is made of one record per component name, the
    names in ascending lexicographic order without repetition, each record
    the (escaped) name, a colon and the rendered value, the records joined by
    bars with nothing after the last one; [{b: 2, a: 1}] gives [a:1|b:2]. *)
Theorem canonical_string_sorted_records (cs : ComponentSet) :
  let keys := Array_sort (Object_keys cs) in
  StronglySorted jsstring_le keys
  /\ NoDup keys
  /\ (forall k, k ∈ keys <-> is_Some (cs !! k))
  /\ componentsToCanonicalString cs
     = Normal (join_with (str "|") (canonical_record cs <$> keys))
  /\ (forall keys' k, keys = keys' ++ [k] ->
        exists prefix,
          componentsToCanonicalString cs = Normal (prefix ++ canonical_record cs k))
  /\ (forall k, Forall (fun c => is_special c = false) k ->
        canonical_record cs k = k ++ str ":" ++ from_option render_component [] (cs !! k))
  /\ componentsToCanonicalString c3_components = Normal (str "a:1|b:2").
Proof.
  intros keys. split; [apply Array_sort_sorted|].
  split; [apply sorted_keys_NoDup|]. split; [apply sorted_keys_elem|].
  split; [apply componentsToCanonicalString_records|]. split; [|split].
  - intros keys' k Hk. rewrite componentsToCanonicalString_records.
    fold keys. rewrite Hk, fmap_app. cbn [fmap list_fmap].
    destruct (join_with_last (str "|") (canonical_record cs <$> keys') (canonical_record cs k))
      as [prefix ->].
    by exists prefix.
  - intros k Hk. unfold canonical_record. by rewrite escapeKey_plain.
  - by vm_compute.
Qed.

Lemma same_outcome_class_render a b :
  same_outcome_class a b -> render_component a = render_component b.
Proof.
  unfold render_component. intros [[Ha Hb]|(Ha & Hb & Hv)].
  - by rewrite !bool_decide_eq_true_2.
  - rewrite Ha, Hb, Hv. done.
Qed.

Lemma same_class_keys (A B : ComponentSet) :
  (forall k, option_Forall2 same_outcome_class (A !! k) (B !! k)) ->
  Array_sort (Object_keys A) = Array_sort (Object_keys B).
Proof.
  intros H.
  apply (StronglySorted_unique jsstring_le); try apply Array_sort_sorted.
  apply NoDup_Permutation; try apply sorted_keys_NoDup.
  intros k. rewrite !sorted_keys_elem.
  specialize (H k). destruct H; split; intros [? ?]; eauto; done.
Qed.

Lemma c4_components_canonical e d d' :
  componentsToCanonicalString (c4_components e d d') = Normal (str "x:error|y:5").
Proof. by vm_compute. Qed.

(** C4: two component sets with the same names whose components are
    pairwise in the same class, whatever the error objects and durations
    are, have the same canonical string and the same identifier; a set in
    which [x] failed and [y] is 5 gives [x:error|y:5]. *)
Theorem canonical_string_ignores_errors (A B : ComponentSet) :
  (forall k, option_Forall2 same_outcome_class (A !! k) (B !! k)) ->
  componentsToCanonicalString A = componentsToCanonicalString B
  /\ hashComponents A = hashComponents B
  /\ (forall e d d',
        componentsToCanonicalString (c4_components e d d') = Normal (str "x:error|y:5")).
Proof.
  intros H.
  assert (componentsToCanonicalString A = componentsToCanonicalString B) as Heq.
  { rewrite !componentsToCanonicalString_records, (same_class_keys A B H).
    do 2 f_equal. apply list_fmap_ext. intros _ k _. unfold canonical_record.
    do 2 f_equal. destruct (H k) as [a b Hab|]; [|done].
    cbn. by apply same_outcome_class_render. }
  split; [done|]. split; [|apply c4_components_canonical].
  unfold hashComponents. by rewrite Heq.
Qed.

Lemma c4_same_classes k :
  option_Forall2 same_outcome_class (c4_first !! k) (c4_second !! k).
Proof.
  unfold c4_first, c4_second, c4_components. rewrite !lookup_insert.
  destruct (decide (str "x" = k)); [constructor; left; split; by eexists|].
  destruct (decide (str "y" = k)); [constructor; right; by cbn|].
  rewrite !lookup_empty. constructor.
Qed.

Lemma canonical_string_ignores_errors_witness :
  (forall k, option_Forall2 same_outcome_class (c4_first !! k) (c4_second !! k))
  /\ componentsToCanonicalString c4_first = componentsToCanonicalString c4_second.
Proof.
  split; [exact c4_same_classes|].
  exact (proj1 (canonical_string_ignores_errors c4_first c4_second c4_same_classes)).
Defined.

(** C10: the empty component set has the empty canonical string, and its
    identifier is the 32-digit Murmur3 x64-128 hash of the empty byte string
    with seed 0, which is 32 zeros. *)
Theorem hashComponents_empty :
  componentsToCanonicalString (∅ : ComponentSet) = Normal []
  /\ hashComponents (∅ : ComponentSet) = Normal (hex128 (MurmurHash3_x64_128 [] 0))
  /\ hashComponents (∅ : ComponentSet) = Normal (str "00000000000000000000000000000000")
  /\ TextEncoder_encode [] = [].
Proof. repeat split; by vm_compute. Qed.

End CanonicalTheorems.

(** ** Claims about the source loader *)

Section LoaderTheorems.
Local Open Scope Z_scope.

Lemma loadSource_fails source w e :
  fails_with (source (source_calls w)) e ->
  loadSource source w
  = (Normal (FinalizeError e (elapsed (source (source_calls w)))),
     mkWorld (now w + elapsed (source (source_calls w))) (S (source_calls w)) (get_calls w)).
Proof.
  intros [H|H]; unfold loadSource, awaitIfAsync, invoke_source; rewrite H; cbn [now];
    do 3 f_equal; lia.
Qed.

Lemma loadSource_yields source w r :
  yields (source (source_calls w)) r ->
  loadSource source w
  = (Normal (match r with
             | FinalResult v => FinalizeValue v (elapsed (source (source_calls w)))
             | GetFunction get => FinalizeGet get (elapsed (source (source_calls w)))
             end),
     mkWorld (now w + elapsed (source (source_calls w))) (S (source_calls w)) (get_calls w)).
Proof.
  intros [H|H]; unfold loadSource, awaitIfAsync, invoke_source; rewrite H; cbn [now];
    destruct r; do 3 f_equal; lia.
Qed.

Lemma call_cases {A} (c : Call A) :
  (exists e, fails_with c e) \/ (exists a, yields c a).
Proof.
  unfold fails_with, yields.
  destruct (outcome c) as [[a|[a|e]]|e]; eauto.
Qed.

Lemma finalizeGet_fails get d w e :
  fails_with (get (get_calls w)) e ->
  finalizeSource (FinalizeGet get d) w
  = (Normal (ErrorComponent e (d + elapsed (get (get_calls w)))),
     mkWorld (now w + elapsed (get (get_calls w))) (source_calls w) (S (get_calls w))).
Proof.
  intros [H|H]; unfold finalizeSource, awaitIfAsync, invoke_get; rewrite H; cbn [now];
    do 3 f_equal; lia.
Qed.

Lemma finalizeGet_yields get d w v :
  yields (get (get_calls w)) v ->
  finalizeSource (FinalizeGet get d) w
  = (Normal (ValueComponent v (d + elapsed (get (get_calls w)))),
     mkWorld (now w + elapsed (get (get_calls w))) (source_calls w) (S (get_calls w))).
Proof.
  intros [H|H]; unfold finalizeSource, awaitIfAsync, invoke_get; rewrite H; cbn [now];
    do 3 f_equal; lia.
Qed.

Lemma fails_yields_exclusive {A} (c : Call A) e a : fails_with c e -> yields c a -> False.
Proof. intros [H|H] [H'|H']; congruence. Qed.

Lemma yields_inj {A} (c : Call A) a a' : yields c a -> yields c a' -> a = a'.
Proof. intros [H|H] [H'|H']; congruence. Qed.

(** C5: when the source throws or rejects in its first stage, or the function
    it returned does so in the second, the promise of [loadSource] and the
    promise of the getter are both fulfilled, never rejected, and the getter
    gives a component whose [error] is the thrown error and whose [value] is
    absent.  Its duration is the time the failing call of the source took
    or, for a failure in the second stage, the time the source took plus the
    time the failing call of the returned function took; this is what the
    clock measured over the load plus what it measured over the getter's
    stage. *)
Theorem loadSource_captures_errors (source : Source) (w w2 : World) (e : JSError) :
  (fails_with (source (source_calls w)) e
   \/ exists get, yields (source (source_calls w)) (GetFunction get)
                  /\ fails_with (get (get_calls w2)) e) ->
  exists f w1 w3 d,
    loadSource source w = (Normal f, w1)
    /\ getComponent (Normal f) w2 = (Normal (mkComponent None (Some e) d), w3)
    /\ now w1 = now w + elapsed (source (source_calls w))
    /\ d = (now w1 - now w) + (now w3 - now w2)
    /\ (fails_with (source (source_calls w)) e ->
        d = elapsed (source (source_calls w)) /\ w3 = w2)
    /\ (forall get, yields (source (source_calls w)) (GetFunction get) ->
        d = elapsed (source (source_calls w)) + elapsed (get (get_calls w2))
        /\ now w3 = now w2 + elapsed (get (get_calls w2))).
Proof.
  intros [H1|(get & H1 & H2)].
  - rewrite (loadSource_fails _ _ _ H1).
    eexists _, _, w2, _. split; [reflexivity|].
    cbn [getComponent finalizeSource now]. unfold ErrorComponent.
    split; [reflexivity|]. split; [reflexivity|]. split; [lia|]. split; [done|].
    intros get Hy. destruct (fails_yields_exclusive _ _ _ H1 Hy).
  - rewrite (loadSource_yields _ _ _ H1).
    eexists _, _, (mkWorld (now w2 + elapsed (get (get_calls w2))) (source_calls w2)
                     (S (get_calls w2))), _.
    split; [reflexivity|].
    cbn [getComponent]. rewrite (finalizeGet_fails _ _ _ _ H2).
    unfold ErrorComponent. cbn [now].
    split; [reflexivity|]. split; [reflexivity|]. split; [lia|]. split.
    + intros Hf. destruct (fails_yields_exclusive _ _ _ Hf H1).
    + intros get' Hy. pose proof (yields_inj _ _ _ H1 Hy) as [= <-]. done.
Qed.

Lemma loadSource_captures_errors_witness :
  let e := mkError (str "Error") (str "no canvas") [] in
  (fails_with (throwing_source e 0%nat) e
   /\ exists f w1 w3,
        loadSource (throwing_source e) (mkWorld 1000 0 0) = (Normal f, w1)
        /\ getComponent (Normal f) (mkWorld 1020 1 0)
           = (Normal (mkComponent None (Some e) 7), w3))
  /\ (yields (rejecting_get_source e 0%nat)
        (GetFunction (fun _ => mkCall (Normal (PromiseOf (Throw e))) 5))
      /\ exists f w1 w3,
           loadSource (rejecting_get_source e) (mkWorld 1000 0 0) = (Normal f, w1)
           /\ getComponent (Normal f) (mkWorld 1020 1 0)
              = (Normal (mkComponent None (Some e) 7), w3)
           /\ now w3 = 1025).
Proof.
  intros e. split.
  - assert (fails_with (throwing_source e 0%nat) e) as H by (left; reflexivity).
    split; [exact H|].
    destruct (loadSource_captures_errors (throwing_source e) (mkWorld 1000 0 0)
                (mkWorld 1020 1 0) e (or_introl H))
      as (f & w1 & w3 & d & E1 & E2 & _ & _ & Hd & _).
    destruct (Hd H) as [-> _]. by exists f, w1, w3.
  - assert (yields (rejecting_get_source e 0%nat)
              (GetFunction (fun _ => mkCall (Normal (PromiseOf (Throw e))) 5))) as H
      by (left; reflexivity).
    split; [exact H|].
    destruct (loadSource_captures_errors (rejecting_get_source e) (mkWorld 1000 0 0)
                (mkWorld 1020 1 0) e
                (or_intror (ex_intro _ _ (conj H (or_intror eq_refl)))))
      as (f & w1 & w3 & d & E1 & E2 & _ & _ & _ & Hd).
    destruct (Hd _ H) as [-> Hn]. by exists f, w1, w3.
Defined.

(** C6, counterexample: on a two-stage source the second call of the getter
    invokes the returned function again and gives another duration. *)
Lemma getter_reinvokes_second_stage :
  ~ getter_idempotent two_stage_source (mkWorld 0 0 0).
Proof. vm_compute. intros (H & _ & _). discriminate H. Qed.

(** C6, as amended: the getter never invokes the source, which [loadSource]
    invoked exactly once.  For a source that failed or loaded its final
    result, two calls of the getter give the same component, the error or
    the value of the load with the load's time as duration, and change
    nothing.  For a two-stage source each call of the getter invokes the
    returned function exactly once more and gives the component of that
    call: its result, and as duration the load's time plus that call's. *)
Theorem getter_does_not_reload (source : Source) (w : World) :
  exists p w1 c1 w2 c2 w3,
    loadSource source w = (Normal p, w1)
    /\ getComponent (Normal p) w1 = (Normal c1, w2)
    /\ getComponent (Normal p) w2 = (Normal c2, w3)
    /\ source_calls w1 = S (source_calls w)
    /\ source_calls w2 = source_calls w1
    /\ source_calls w3 = source_calls w1
    /\ match p with
       | FinalizeError e d =>
           fails_with (source (source_calls w)) e
           /\ d = elapsed (source (source_calls w))
           /\ c1 = ErrorComponent e d /\ c2 = c1 /\ w2 = w1 /\ w3 = w1
       | FinalizeValue v d =>
           yields (source (source_calls w)) (FinalResult v)
           /\ d = elapsed (source (source_calls w))
           /\ c1 = ValueComponent v d /\ c2 = c1 /\ w2 = w1 /\ w3 = w1
       | FinalizeGet get d =>
           yields (source (source_calls w)) (GetFunction get)
           /\ d = elapsed (source (source_calls w))
           /\ get_calls w2 = S (get_calls w1) /\ get_calls w3 = S (get_calls w2)
           /\ c1 = call_component d (get (get_calls w1))
           /\ c2 = call_component d (get (get_calls w2))
           /\ now w2 = now w1 + elapsed (get (get_calls w1))
           /\ now w3 = now w2 + elapsed (get (get_calls w2))
       end.
Proof.
  destruct (call_cases (source (source_calls w))) as [[e H]|[[v|get] H]].
  - rewrite (loadSource_fails _ _ _ H). do 6 eexists.
    repeat split; try reflexivity. done.
  - rewrite (loadSource_yields _ _ _ H). do 6 eexists.
    repeat split; try reflexivity. done.
  - rewrite (loadSource_yields _ _ _ H). cbn [getComponent].
    set (d := elapsed (source (source_calls w))).
    set (w1 := mkWorld _ _ _).
    assert (forall w', finalizeSource (FinalizeGet get d) w'
                       = (Normal (call_component d (get (get_calls w'))),
                          mkWorld (now w' + elapsed (get (get_calls w'))) (source_calls w')
                            (S (get_calls w')))) as E.
    { intros w'. unfold call_component.
      destruct (call_cases (get (get_calls w'))) as [[e' H']|[v' H']].
      - rewrite (finalizeGet_fails _ _ _ _ H'). by destruct H' as [-> | ->].
      - rewrite (finalizeGet_yields _ _ _ _ H'). by destruct H' as [-> | ->]. }
    exists (FinalizeGet get d), w1. do 4 eexists.
    split; [reflexivity|]. split; [apply E|]. split; [apply E|].
    repeat split; done.
Qed.

End LoaderTheorems.

(** ** Claims about the scheduler and the confidence score *)

Section SchedulerTheorems.
Context {A B : Type}.
Local Open Scope Z_scope.

Lemma mapped_snoc (callback : A -> nat -> B) (items : list A) item :
  mapped callback (items ++ [item])
  = mapped callback items ++ [Some (callback item (length items))].
Proof.
  unfold mapped. rewrite imap_app. cbn [imap]. by rewrite Nat.add_0_r.
Qed.

Lemma mapWithBreaks_loop_spec clock (callback : A -> nat -> B) (items : list A) interval :
  forall fuel i tick last releases,
    (i + fuel = length items)%nat ->
    fst (mapWithBreaks_loop clock callback items interval fuel i tick last
           (mapped callback (take i items) ++ replicate (length items - i) None) releases)
    = mapped callback items.
Proof.
  induction fuel as [|fuel IH]; intros i tick last releases Hi.
  - cbn [mapWithBreaks_loop fst]. rewrite Nat.add_0_r in Hi. subst i.
    by rewrite firstn_all, Nat.sub_diag, app_nil_r.
  - cbn [mapWithBreaks_loop].
    destruct (_ !! _) as [item|] eqn:Ei.
    2:{ apply lookup_ge_None in Ei. lia. }
    assert (<[i:=Some (callback item i)]>
              (mapped callback (take i items) ++ replicate (length items - i) None)
            = mapped callback (take (S i) items) ++ replicate (length items - S i) None) as ->.
    { assert (length (mapped callback (take i items)) = i) as Hlen
        by (unfold mapped; rewrite length_imap, length_take; lia).
      rewrite (take_S_r _ _ _ Ei), mapped_snoc, length_take.
      replace (i `min` length items)%nat with i by lia.
      replace (length items - i)%nat with (S (length items - S i)) by lia.
      cbn [replicate].
      rewrite insert_app_r_alt by lia. rewrite Hlen, Nat.sub_diag. cbn [insert list_insert].
      by rewrite <- app_assoc. }
    destruct (_ >=? _); apply IH; lia.
Qed.

(** C7: whatever the clock reads, and so wherever the loop is released, the
    array returned has the length of the input and holds at every position
    the callback's result for the item at that position. *)
Theorem mapWithBreaks_keeps_order (clock : nat -> Z) (items : list A)
    (callback : A -> nat -> B) (loopReleaseInterval : option Z) :
  let results := fst (mapWithBreaks clock items callback loopReleaseInterval) in
  length results = length items
  /\ results = imap (fun i item => Some (callback item i)) items
  /\ (forall i, results !! i = (fun item => Some (callback item i)) <$> items !! i).
Proof.
  intros results.
  assert (results = mapped callback items) as ->.
  { unfold results, mapWithBreaks.
    pose proof (mapWithBreaks_loop_spec clock callback items
                  (default 16 loopReleaseInterval) (length items) 0 1 (clock 0%nat) 0%nat) as H.
    rewrite take_0, Nat.sub_0_r in H. apply H. lia. }
  unfold mapped. split; [apply length_imap|]. split; [done|].
  intros i. apply list_lookup_imap.
Qed.

End SchedulerTheorems.

Section ConfidenceTheorems.




End ConfidenceTheorems.

(** ** Claims about the lazily hashed result *)

Section LazyResultTheorems.

(** [hashComponents] never throws and gives 32 characters. *)
Lemma hashComponents_total (cs : ComponentSet) :
  exists id, hashComponents cs = Normal id /\ length id = 32%nat.
Proof.
  unfold hashComponents. rewrite componentsToCanonicalString_records.
  eexists. split; [reflexivity|]. apply x64hash128_length.
Qed.

(** Once the cache is filled every read returns it and nothing is hashed. *)
Lemma run_accesses_cached ops : forall this id,
  visitorIdCache this = Some id ->
  Forall (eq (Normal id)) (fst (run_accesses ops this))
  /\ hash_calls (snd (run_accesses ops this)) = hash_calls this
  /\ visitorIdCache (snd (run_accesses ops this)) = Some id.
Proof.
  induction ops as [|[|cs] ops IH]; intros this id Hc; cbn [run_accesses].
  - by repeat split.
  - unfold get_visitorId. rewrite Hc.
    destruct (run_accesses ops this) as [rs this'] eqn:E.
    specialize (IH this id Hc). rewrite E in IH. destruct IH as (H1 & H2 & H3).
    cbn [fst snd] in *. repeat split; [by constructor|done..].
  - by apply (IH (set_components cs this) id).
Qed.

Lemma hashComponents_length (cs : ComponentSet) id :
  hashComponents cs = Normal id -> length id = 32%nat.
Proof.
  unfold hashComponents. destruct (componentsToCanonicalString cs); [|done].
  intros [= <-]. apply x64hash128_length.
Qed.

Lemma run_accesses_first_read ops : forall this id,
  visitorIdCache this = None ->
  hashComponents (held_at_first_read ops (result_components this)) = Normal id ->
  Forall (eq (Normal id)) (fst (run_accesses ops this))
  /\ hash_calls (snd (run_accesses ops this))
     = (hash_calls this + if fst (run_accesses ops this) is [] then 0 else 1)%nat
  /\ (fst (run_accesses ops this) <> [] ->
      visitorIdCache (snd (run_accesses ops this)) = Some id).
Proof.
  induction ops as [|[|cs] ops IH]; intros this id Hc Hid; cbn [run_accesses].
  - cbn [fst snd]. split; [constructor|]. split; [lia|done].
  - cbn [held_at_first_read] in Hid. unfold get_visitorId. rewrite Hc, Hid.
    set (this1 := mkGetResult _ _ _ _ _).
    destruct (run_accesses_cached ops this1 id eq_refl) as (H1 & H2 & H3).
    destruct (run_accesses ops this1) as [rs this'].
    cbn [fst snd] in *. split; [by constructor|]. split; [|done].
    rewrite H2. cbn [hash_calls this1]. lia.
  - by apply (IH (set_components cs this)).
Qed.

(** C9: on a result built by [makeLazyGetResult], whatever sequence of reads
    of [visitorId] and assignments to [components] is made (the setter of
    [visitorId] left alone), when [hashComponents] returns an identifier for
    the components held at the first read, every read returns that very
    identifier, a string of 32 characters, also after [components] has been
    assigned again; [hashComponents] is called once if there is a read and
    not at all otherwise, and after a read the identifier is what the cache
    holds. *)
Theorem visitorId_memoized (env : Browser) (cs : ComponentSet) (result : GetResult)
    (ops : list Access) (id : jsstring) :
  makeLazyGetResult env cs = Normal result ->
  hashComponents (held_at_first_read ops cs) = Normal id ->
  length id = 32%nat
  /\ Forall (eq (Normal id)) (fst (run_accesses ops result))
  /\ hash_calls (snd (run_accesses ops result))
     = (if fst (run_accesses ops result) is [] then 0 else 1)%nat
  /\ (hash_calls (snd (run_accesses ops result)) <= 1)%nat
  /\ (fst (run_accesses ops result) <> [] ->
      visitorIdCache (snd (run_accesses ops result)) = Some id).
Proof.
  unfold makeLazyGetResult. destruct (getConfidence env cs) as [conf|e]; [|done].
  intros [= <-] Hid.
  destruct (run_accesses_first_read ops (mkGetResult None conf cs version 0) id eq_refl Hid)
    as (Hall & Hcalls & Hcache).
  cbn [hash_calls] in Hcalls. rewrite Nat.add_0_l in Hcalls.
  split; [by apply (hashComponents_length _ _ Hid)|].
  repeat split; [done..| |done]. rewrite Hcalls. destruct (fst _); lia.
Qed.

Lemma visitorId_memoized_witness :
  makeLazyGetResult android_browser windows_components
  = Normal (mkGetResult None (mkConfidence 0.4%Q) windows_components version 0)
  /\ hashComponents windows_components = Normal windows_visitorId
  /\ hashComponents linux_components <> Normal windows_visitorId
  /\ fst (run_accesses
            [ReadVisitorId; AssignComponents linux_components; ReadVisitorId; ReadVisitorId]
            (mkGetResult None (mkConfidence 0.4%Q) windows_components version 0))
     = [Normal windows_visitorId; Normal windows_visitorId; Normal windows_visitorId].
Proof.
  assert (makeLazyGetResult android_browser windows_components
          = Normal (mkGetResult None (mkConfidence 0.4%Q) windows_components version 0))
    as H1 by (vm_compute; reflexivity).
  assert (hashComponents windows_components = Normal windows_visitorId) as H2
    by (vm_compute; reflexivity).
  split; [exact H1|]. split; [exact H2|]. split; [by vm_compute|].
  destruct (visitorId_memoized android_browser windows_components _
              [ReadVisitorId; AssignComponents linux_components; ReadVisitorId;
               ReadVisitorId] windows_visitorId H1 H2)
    as (_ & Hall & _).
  destruct (fst (run_accesses _ _)) as [|r1 [|r2 [|r3 [|r4 rest]]]] eqn:E;
    try (vm_compute in E; discriminate E).
  apply Forall_cons in Hall as [<- Hall]. apply Forall_cons in Hall as [<- Hall].
  by apply Forall_cons in Hall as [<- _].
Defined.

End LazyResultTheorems.

(** ** More on the tuple arithmetic *)

Section TupleTheorems.
Local Open Scope Z_scope.
Import Murmur3Ref.

Lemma rem_of_mod_0 (bits : Z) : bits mod 64 = 0 -> Z.rem bits 64 = 0.
Proof.
  intros H. apply Z.rem_divide; [done|]. by apply Z.mod_divide in H.
Qed.

(** X1: [x64Add] is addition modulo 2^64 of the values the two tuples stand
    for, whatever numbers (signed or unsigned) their words hold; hence it
    commutes and associates on those values. *)
Theorem x64Add_wraps (m n p : X64) :
  U64 (x64Add m n) = (U64 m + U64 n) mod 2 ^ 64
  /\ U64 (x64Add m n) = U64 (x64Add n m)
  /\ U64 (x64Add (x64Add m n) p) = U64 (x64Add m (x64Add n p)).
Proof.
  split; [apply x64Add_spec|]. split.
  - rewrite !x64Add_spec. f_equal. lia.
  - rewrite !x64Add_spec. rewrite Zplus_mod_idemp_l, Zplus_mod_idemp_r. f_equal. lia.
Qed.

(** X2: [x64Multiply] is multiplication modulo 2^64; it commutes and
    distributes over [x64Add]. *)
Theorem x64Multiply_wraps (m n p : X64) :
  U64 (x64Multiply m n) = (U64 m * U64 n) mod 2 ^ 64
  /\ U64 (x64Multiply m n) = U64 (x64Multiply n m)
  /\ U64 (x64Multiply m (x64Add n p))
     = U64 (x64Add (x64Multiply m n) (x64Multiply m p)).
Proof.
  split; [apply x64Multiply_spec|]. split.
  - rewrite !x64Multiply_spec. f_equal. lia.
  - rewrite x64Multiply_spec, !x64Add_spec, !x64Multiply_spec.
    rewrite Zmult_mod_idemp_r, <- Zplus_mod. f_equal. lia.
Qed.

Ltac count_cases k n tac :=
  lazymatch n with
  | O => exfalso; lia
  | S ?n' => destruct k as [|k]; [first [exfalso; lia | tac] | count_cases k n' tac]
  end.

(** Runs [tac] for every value of a count known to lie between 0 and 63. *)
Ltac for_each_count b tac :=
  let k := fresh "k" in let Hk := fresh "Hk" in
  assert (exists n : nat, b = Z.of_nat n /\ (n < 64)%nat) as (k & -> & Hk)
    by (exists (Z.to_nat b); lia);
  count_cases k 64%nat tac.

Ltac by_division :=
  repeat match goal with
  | |- context [Z.of_nat ?n] =>
      let v := eval vm_compute in (Z.of_nat n) in change (Z.of_nat n) with v
  end;
  repeat match goal with
  | |- context [2 ^ ?e] =>
      let v := eval vm_compute in (2 ^ e) in progress change (2 ^ e) with v
  end;
  Z.div_mod_to_equations; lia.

Lemma ROTL64_inverse x r :
  0 <= x < 2 ^ 64 -> 0 < r < 64 ->
  ROTL64 (ROTL64 x r) (64 - r) = x /\ 0 <= ROTL64 x r < 2 ^ 64.
Proof.
  intros Hx Hr.
  assert (0 <= ROTL64 x r < 2 ^ 64) as Hy.
  { rewrite ROTL64_arith by done. for_each_count r by_division. }
  split; [|done].
  rewrite (ROTL64_arith _ (64 - r)) by lia.
  rewrite ROTL64_arith by done. clear Hy.
  for_each_count r by_division.
Qed.

(** X3: for a count strictly between 0 and 64, [x64Rotl] rotates the 64-bit
    value to the left, and rotating on by the complementary count gives the
    value back. *)
Theorem x64Rotl_rotates (m : X64) (bits : Z) :
  0 < bits < 64 ->
  U64 (x64Rotl m bits) = ROTL64 (U64 m) bits
  /\ U64 (x64Rotl (x64Rotl m bits) (64 - bits)) = U64 m.
Proof.
  intros Hb. split; [by apply x64Rotl_spec|].
  rewrite !x64Rotl_spec by lia.
  apply ROTL64_inverse; [apply U64_range|done].
Qed.

Lemma x64Rotl_rotates_witness :
  0 < 31 < 64
  /\ U64 (x64Rotl (x64Rotl (mk64 0x87c37b91 (-5)) 31) (64 - 31)) = U64 (mk64 0x87c37b91 (-5)).
Proof.
  assert (0 < 31 < 64) as H by lia.
  split; [exact H|]. exact (proj2 (x64Rotl_rotates _ 31 H)).
Defined.

Lemma ToUint32_idemp' x : ToUint32 (ToUint32 x) = ToUint32 x.
Proof. unfold ToUint32. apply Z.mod_mod. lia. Qed.

Lemma js_shru_32 x : js_shru x 32 = ToUint32 x.
Proof. unfold js_shru. change (ToUint32 32 mod 32) with 0. apply Z.shiftr_0_r. Qed.

Lemma ToUint32_js_shl_0 x : ToUint32 (js_shl x 0) = ToUint32 x.
Proof.
  unfold js_shl. change (ToUint32 0 mod 32) with 0.
  by rewrite Z.shiftl_0_r, !ToUint32_ToInt32.
Qed.

(** X4: a count that is a multiple of 64 does not leave the tuple alone:
    [x64Rotl] then takes the branch for counts below 32, where [m[1] >>> 32]
    is [m[1]] itself, and writes the bitwise or of the two words into both. *)
Theorem x64Rotl_multiple_of_64 (m : X64) (bits : Z) :
  bits mod 64 = 0 ->
  ToUint32 (w0 (x64Rotl m bits)) = Z.lor (ToUint32 (w0 m)) (ToUint32 (w1 m))
  /\ ToUint32 (w1 (x64Rotl m bits)) = Z.lor (ToUint32 (w1 m)) (ToUint32 (w0 m)).
Proof.
  intros Hb%rem_of_mod_0. unfold x64Rotl. rewrite Hb. cbn [Z.eqb Z.ltb Z.compare w0 w1].
  change (32 - 0) with 32.
  by rewrite !ToUint32_js_or, !js_shru_32, !ToUint32_js_shl_0, !ToUint32_idemp'.
Qed.

Lemma x64Rotl_multiple_of_64_witness :
  64 mod 64 = 0
  /\ ToUint32 (w0 (x64Rotl (mk64 1 2) 64)) = Z.lor (ToUint32 1) (ToUint32 2).
Proof.
  assert (64 mod 64 = 0) as H by reflexivity.
  split; [exact H|]. exact (proj1 (x64Rotl_multiple_of_64 (mk64 1 2) 64 H)).
Defined.

(** X5: [x64LeftShift] shifts the low word only.  For a count strictly
    between 0 and 64 the result is the low word shifted left, modulo 2^64,
    and the high word of the argument plays no part; for a count that is a
    multiple of 64 the tuple, high word included, is returned as it is. *)
Theorem x64LeftShift_low_word (m : X64) (bits : Z) :
  (0 < bits < 64 ->
     U64 (x64LeftShift m bits) = (ToUint32 (w1 m) * 2 ^ bits) mod 2 ^ 64
     /\ forall hi, x64LeftShift (mk64 hi (w1 m)) bits = x64LeftShift m bits)
  /\ (bits mod 64 = 0 -> x64LeftShift m bits = m).
Proof.
  split.
  - intros Hb. split; [by apply x64LeftShift_spec|].
    intros hi. unfold x64LeftShift. rewrite (Z.rem_small bits 64) by lia.
    destruct (Z.eqb_spec bits 0); [lia|]. by destruct (bits <? 32).
  - intros Hb%rem_of_mod_0. unfold x64LeftShift. by rewrite Hb.
Qed.

(** X6: [x64Xor] is the bitwise exclusive or of the two 64-bit values, and
    applying it twice with the same tuple gives the first value back. *)
Theorem x64Xor_xors (m n : X64) :
  U64 (x64Xor m n) = Z.lxor (U64 m) (U64 n)
  /\ U64 (x64Xor (x64Xor m n) n) = U64 m
  /\ U64 (x64Xor m n) = U64 (x64Xor n m).
Proof.
  rewrite !x64Xor_spec. split; [done|]. split.
  - by rewrite Z.lxor_assoc, Z.lxor_nilpotent, Z.lxor_0_r.
  - apply Z.lxor_comm.
Qed.

Lemma wrap64_lxor a b : wrap64 (Z.lxor a b) = Z.lxor (wrap64 a) (wrap64 b).
Proof.
  unfold wrap64. rewrite <- !Z.land_ones by lia.
  apply Z.bits_inj'. intros i Hi. rewrite ?Z.land_spec, ?Z.lxor_spec, ?Z.land_spec.
  destruct (Z.testbit (Z.ones 64) i), (Z.testbit a i), (Z.testbit b i); done.
Qed.

Lemma wrap64_small x : 0 <= x < 2 ^ 64 -> wrap64 x = x.
Proof. intros. by apply Z.mod_small. Qed.

Lemma wrap64_range x : 0 <= wrap64 x < 2 ^ 64.
Proof. apply Z.mod_pos_bound. lia. Qed.

Lemma shiftr_range x n : 0 <= x < 2 ^ 64 -> 0 <= n -> 0 <= Z.shiftr x n < 2 ^ 64.
Proof.
  intros Hx Hn. rewrite Z.shiftr_div_pow2 by lia.
  assert (0 < 2 ^ n) by lia.
  split; [apply Z.div_pos; lia|]. apply Z.div_lt_upper_bound; nia.
Qed.

Lemma lxor_range a b :
  0 <= a < 2 ^ 64 -> 0 <= b < 2 ^ 64 -> 0 <= Z.lxor a b < 2 ^ 64.
Proof.
  intros Ha Hb.
  replace (Z.lxor a b) with (wrap64 (Z.lxor a b)); [apply wrap64_range|].
  by rewrite wrap64_lxor, !wrap64_small.
Qed.

(** The step [k ^= k >> 33] keeps a 64-bit value in range and undoes
    itself. *)
Lemma xorshift33_involutive k :
  0 <= k < 2 ^ 64 ->
  let k' := Z.lxor k (Z.shiftr k 33) in
  0 <= k' < 2 ^ 64 /\ Z.lxor k' (Z.shiftr k' 33) = k.
Proof.
  intros Hk k'.
  assert (0 <= k' < 2 ^ 64) as Hk'.
  { apply lxor_range; [done|apply shiftr_range; lia]. }
  split; [done|]. unfold k'.
  rewrite Z.shiftr_lxor, Z.shiftr_shiftr by lia.
  replace (Z.shiftr k (33 + 33)) with 0.
  - rewrite Z.lxor_0_r, Z.lxor_assoc, Z.lxor_nilpotent. apply Z.lxor_0_r.
  - symmetry. rewrite Z.shiftr_div_pow2 by lia. apply Z.div_small. lia.
Qed.

(** Multiplying by an odd constant modulo 2^64 is undone by multiplying by
    its inverse. *)
Lemma wrap64_mul_inverse c c' k :
  wrap64 (c * c') = 1 -> 0 <= k < 2 ^ 64 -> wrap64 (wrap64 (k * c) * c') = k.
Proof.
  intros Hc Hk. unfold wrap64 in *.
  rewrite Zmult_mod_idemp_l, <- Z.mul_assoc, <- Zmult_mod_idemp_r, Hc, Z.mul_1_r.
  by apply Z.mod_small.
Qed.

Lemma fmix64_inverse_spec k : 0 <= k < 2 ^ 64 -> fmix64_inverse (fmix64 k) = k.
Proof.
  intros Hk. unfold fmix64, fmix64_inverse.
  destruct (xorshift33_involutive k Hk) as [H1 E1].
  set (k1 := Z.lxor k (Z.shiftr k 33)) in *.
  set (k2 := wrap64 (k1 * _)).
  destruct (xorshift33_involutive k2 (wrap64_range _)) as [H2 E2].
  set (k3 := Z.lxor k2 (Z.shiftr k2 33)) in *.
  set (k4 := wrap64 (k3 * _)).
  destruct (xorshift33_involutive k4 (wrap64_range _)) as [H3 E3].
  cbv zeta in *. rewrite E3. unfold k4.
  rewrite wrap64_mul_inverse by done. rewrite E2. unfold k2.
  rewrite wrap64_mul_inverse by done. exact E1.
Qed.

(** X7: [x64Fmix] is the final mix [fmix64] of the reference, and it loses
    nothing: two tuples with the same mixed value stand for the same 64-bit
    value, because [fmix64_inverse] undoes the mix. *)
Theorem x64Fmix_invertible (h h' : X64) :
  U64 (x64Fmix h) = fmix64 (U64 h)
  /\ fmix64_inverse (U64 (x64Fmix h)) = U64 h
  /\ (U64 (x64Fmix h) = U64 (x64Fmix h') -> U64 h = U64 h').
Proof.
  split; [apply x64Fmix_spec|]. split.
  - rewrite x64Fmix_spec. apply fmix64_inverse_spec, U64_range.
  - intros H. rewrite <- (fmix64_inverse_spec (U64 h)), <- (fmix64_inverse_spec (U64 h'))
      by apply U64_range.
    by rewrite <- !x64Fmix_spec, H.
Qed.
End TupleTheorems.

(** ** More on the hash *)

Section HashExtras.
Local Open Scope Z_scope.
Import Murmur3Ref.

Lemma length_utf8_of_scalar cp : (1 <= length (utf8_of_scalar cp) <= 4)%nat.
Proof.
  unfold utf8_of_scalar.
  destruct (cp <? 128)%N; [|destruct (cp <? 2048)%N; [|destruct (cp <? 65536)%N]];
    cbn; lia.
Qed.

Lemma length_TextEncoder_encode s :
  (length (TextEncoder_encode s) <= 4 * length s)%nat.
Proof.
  induction s as [s IH] using (induction_ltof1 _ length). unfold ltof in IH.
  destruct s as [|c rest]; [done|]. cbn [TextEncoder_encode].
  destruct (is_lead_surrogate c).
  - destruct rest as [|d rest'].
    { pose proof (length_utf8_of_scalar 65533). cbn [length] in *. lia. }
    destruct (is_trail_surrogate d); rewrite length_app.
    + pose proof (length_utf8_of_scalar (65536 + (c - 55296) * 1024 + (d - 56320))).
      pose proof (IH rest'). cbn [length] in *. lia.
    + pose proof (length_utf8_of_scalar 65533).
      pose proof (IH (d :: rest')). cbn [length] in *. lia.
  - destruct (is_trail_surrogate c); rewrite length_app.
    + pose proof (length_utf8_of_scalar 65533). pose proof (IH rest). cbn [length] in *. lia.
    + pose proof (length_utf8_of_scalar c). pose proof (IH rest). cbn [length] in *. lia.
Qed.

(** X8: [getUTF8Bytes] returns the UTF-8 encoding of the string whether or
    not its loop reaches the end: the codes themselves when all are at most
    127, the encoder's output otherwise.  Every element is a byte and there
    are at most four bytes per code unit. *)
Theorem getUTF8Bytes_utf8 (input : jsstring) :
  getUTF8Bytes input = TextEncoder_encode input
  /\ (Forall (fun c => (c <= 127)%N) input -> getUTF8Bytes input = Z.of_N <$> input)
  /\ bytes_ok (getUTF8Bytes input)
  /\ (length (getUTF8Bytes input) <= 4 * length input)%nat.
Proof.
  rewrite getUTF8Bytes_spec. split; [done|]. split; [apply TextEncoder_encode_ascii|].
  split; [apply TextEncoder_encode_bytes|apply length_TextEncoder_encode].
Qed.

Lemma short_string_bytes (input : jsstring) :
  Z.of_nat (length input) < 2 ^ 30 ->
  Z.of_nat (length (TextEncoder_encode input)) < 2 ^ 32.
Proof. intros H. pose proof (length_TextEncoder_encode input). lia. Qed.

Lemma x64hash128_seeded_ref (input : jsstring) (seed : Z) :
  Z.of_nat (length input) < 2 ^ 30 ->
  x64hash128 input (Some seed)
  = hex128 (MurmurHash3_x64_128 (TextEncoder_encode input) (ToUint32 seed)).
Proof.
  intros Hlen. unfold x64hash128. rewrite getUTF8Bytes_spec.
  assert (ToUint32 (if seed =? 0 then 0 else seed) = ToUint32 seed) as <-
    by (by destruct (Z.eqb_spec seed 0) as [->|]).
  destruct (x64hash128_words_spec (TextEncoder_encode input) (if seed =? 0 then 0 else seed)
              (TextEncoder_encode_bytes input) (short_string_bytes input Hlen))
    as (h1 & h2 & -> & Href).
  rewrite x64hash128_render. by rewrite Href.
Qed.

(** X9: with a seed given, a string of fewer than 2^30 code units hashes to
    the reference hash of its UTF-8 bytes under the seed reduced modulo 2^32;
    so seeds that agree modulo 2^32 (a negative seed and its unsigned
    counterpart, say) give the same hash, and seed 0 is the same as no seed. *)
Theorem x64hash128_seed (input : jsstring) (seed seed' : Z) :
  Z.of_nat (length input) < 2 ^ 30 ->
  x64hash128 input (Some seed)
  = hex128 (MurmurHash3_x64_128 (TextEncoder_encode input) (ToUint32 seed))
  /\ (ToUint32 seed = ToUint32 seed' ->
      x64hash128 input (Some seed) = x64hash128 input (Some seed'))
  /\ x64hash128 input (Some 0) = x64hash128 input None.
Proof.
  intros Hlen. split; [by apply x64hash128_seeded_ref|]. split; [|done].
  intros Hs. by rewrite !x64hash128_seeded_ref, Hs.
Qed.

Lemma x64hash128_seed_witness :
  Z.of_nat (length (str "fingerprint")) < 2 ^ 30
  /\ x64hash128 (str "fingerprint") (Some (-1))
     = hex128 (MurmurHash3_x64_128 (TextEncoder_encode (str "fingerprint")) (ToUint32 (-1))).
Proof.
  assert (Z.of_nat (length (str "fingerprint")) < 2 ^ 30) as H by (vm_compute; reflexivity).
  split; [exact H|]. exact (proj1 (x64hash128_seed _ (-1) (-1) H)).
Defined.

(** X10: the hash sees a string only through its UTF-8 bytes, so strings
    that the encoder maps to the same bytes (strings differing in unpaired
    surrogates, which all become U+FFFD) have the same hash under every
    seed. *)
Theorem x64hash128_bytes_only (a b : jsstring) (seed : option Z) :
  TextEncoder_encode a = TextEncoder_encode b ->
  x64hash128 a seed = x64hash128 b seed.
Proof. intros H. unfold x64hash128. by rewrite !getUTF8Bytes_spec, H. Qed.

Lemma x64hash128_bytes_only_witness :
  TextEncoder_encode [0xD800%N; 0x41%N] = TextEncoder_encode [0xDFFF%N; 0x41%N]
  /\ [0xD800%N; 0x41%N] <> [0xDFFF%N; 0x41%N]
  /\ x64hash128 [0xD800%N; 0x41%N] None = x64hash128 [0xDFFF%N; 0x41%N] None.
Proof.
  assert (TextEncoder_encode [0xD800%N; 0x41%N] = TextEncoder_encode [0xDFFF%N; 0x41%N]) as H
    by reflexivity.
  split; [exact H|]. split; [discriminate|].
  exact (x64hash128_bytes_only _ _ None H).
Defined.

Lemma hexDigit_value_hexDigit d : 0 <= d < 16 -> hexDigit_value (hexDigit d) = d.
Proof.
  intros Hd. unfold hexDigit_value, hexDigit.
  destruct (Z.ltb_spec d 10); rewrite Z2N.id by lia.
  - destruct (Z.ltb_spec (48 + d) 58); lia.
  - destruct (Z.ltb_spec (87 + d) 58); lia.
Qed.

Lemma hex_value_snoc s c : hex_value (s ++ [c]) = 16 * hex_value s + hexDigit_value c.
Proof. unfold hex_value. by rewrite foldl_app. Qed.

Lemma hex_value_hex_fixed d n :
  hex_value (hex_fixed d n) = n mod 16 ^ Z.of_nat d.
Proof.
  revert n. induction d as [|d IH]; intros n.
  - cbn. by rewrite Z.mod_1_r.
  - cbn [hex_fixed]. rewrite hex_value_snoc, IH.
    rewrite hexDigit_value_hexDigit by (apply Z.mod_pos_bound; lia).
    rewrite Nat2Z.inj_succ, Z.pow_succ_r by lia.
    rewrite (Z.rem_mul_r n 16 (16 ^ Z.of_nat d)) by lia. lia.
Qed.

(** X11: the rendering of a word reads back: [hex8] gives eight lowercase
    hexadecimal digits whose value is the word taken as unsigned, however
    small or negative the word is; and the first and second half of a hash
    read back as the two lanes of the reference hash. *)
Theorem hex8_reads_back (w : Z) (input : jsstring) :
  length (hex8 w) = 8%nat
  /\ Forall (fun c => is_lower_hex c = true) (hex8 w)
  /\ hex_value (hex8 w) = ToUint32 w
  /\ (Z.of_nat (length input) < 2 ^ 30 ->
      (hex_value (take 16 (x64hash128 input None)),
       hex_value (drop 16 (x64hash128 input None)))
      = MurmurHash3_x64_128 (TextEncoder_encode input) 0).
Proof.
  rewrite hex8_spec. split; [apply length_hex_fixed|]. split; [apply hex_fixed_lower|].
  split.
  - rewrite hex_value_hex_fixed. change (16 ^ Z.of_nat 8) with (2 ^ 32).
    apply Z.mod_small, ToUint32_range.
  - intros Hlen.
    change (x64hash128 input None) with (x64hash128 input (Some 0)).
    rewrite x64hash128_seeded_ref by done.
    destruct (x64hash128_words_spec (TextEncoder_encode input) (ToUint32 0)
                (TextEncoder_encode_bytes input) (short_string_bytes input Hlen))
      as (h1 & h2 & _ & Href).
    change (ToUint32 (ToUint32 0)) with (ToUint32 0) in Href. rewrite <- Href.
    pose proof (U64_range h1). pose proof (U64_range h2).
    unfold hex128. cbn [fst snd].
    rewrite take_app_length' by (by rewrite length_hex_fixed).
    rewrite drop_app_length' by (by rewrite length_hex_fixed).
    rewrite !hex_value_hex_fixed. change (16 ^ Z.of_nat 16) with (2 ^ 64).
    by rewrite !Z.mod_small.
Qed.


(** X12: every sum [x64Multiply] forms before masking it is a non-negative
    integer below 2^35, far inside the range in which double-precision
    arithmetic is exact, so no step of the multiplication rounds. *)
Theorem x64Multiply_sums_exact (m n : X64) :
  Forall (fun v => 0 <= v < 2 ^ 35) (x64Multiply_sums m n).
Proof.
  unfold x64Multiply_sums.
  rewrite !js_and_ffff, !js_shru_spec by lia.
  destruct (split16 (w0 m)) as (m0 & m1 & Hm0 & Hm1 & _ & -> & ->).
  destruct (split16 (w1 m)) as (m2 & m3 & Hm2 & Hm3 & _ & -> & ->).
  destruct (split16 (w0 n)) as (n0 & n1 & Hn0 & Hn1 & _ & -> & ->).
  destruct (split16 (w1 n)) as (n2 & n3 & Hn2 & Hn3 & _ & -> & ->).
  pose proof (limb_product m3 n3 Hm3 Hn3). pose proof (limb_product m2 n3 Hm2 Hn3).
  pose proof (limb_product m3 n2 Hm3 Hn2). pose proof (limb_product m1 n3 Hm1 Hn3).
  pose proof (limb_product m2 n2 Hm2 Hn2). pose proof (limb_product m3 n1 Hm3 Hn1).
  pose proof (limb_product m0 n3 Hm0 Hn3). pose proof (limb_product m1 n2 Hm1 Hn2).
  pose proof (limb_product m2 n1 Hm2 Hn1). pose proof (limb_product m3 n0 Hm3 Hn0).
  generalize dependent (m3 * n3). generalize dependent (m2 * n3).
  generalize dependent (m3 * n2). generalize dependent (m1 * n3).
  generalize dependent (m2 * n2). generalize dependent (m3 * n1).
  generalize dependent (m0 * n3). generalize dependent (m1 * n2).
  generalize dependent (m2 * n1). generalize dependent (m3 * n0).
  intros. unfold ToUint32.
  repeat (apply Forall_cons_2; [Z.div_mod_to_equations; lia|]). apply Forall_nil_2.
Qed.
End HashExtras.

(** ** More on the canonical string *)

Section CanonicalExtras.
Import Murmur3Ref.

Lemma canonical_record_nonempty (cs : ComponentSet) k : canonical_record cs k <> [].
Proof. unfold canonical_record. by destruct (escapeKey k). Qed.

Lemma join_with_nil_inv sep parts :
  Forall (fun p => p <> []) parts -> join_with sep parts = [] -> parts = [].
Proof.
  intros Hne. destruct Hne as [|p parts Hp _]; [done|].
  cbn [join_with]. destruct parts; [done|]. by destruct p.
Qed.

Lemma sorted_keys_nil (cs : ComponentSet) : Array_sort (Object_keys cs) = [] <-> cs = ∅.
Proof.
  split.
  - intros H. apply map_empty. intros k.
    destruct (cs !! k) eqn:E; [|done].
    assert (k ∈ Array_sort (Object_keys cs)) as Hin by (apply sorted_keys_elem; eauto).
    rewrite H in Hin. by apply elem_of_nil in Hin.
  - intros ->. reflexivity.
Qed.

(** X14: the canonical string is empty exactly for the empty component set:
    every record holds at least its colon, so no set with a component (even
    one with an empty name and an empty rendering) collides with the empty
    set. *)
Theorem canonical_string_empty_iff (cs : ComponentSet) :
  componentsToCanonicalString cs = Normal [] <-> cs = ∅.
Proof.
  rewrite componentsToCanonicalString_records. split.
  - intros [= H]. apply sorted_keys_nil.
    apply join_with_nil_inv in H.
    + by apply fmap_nil_inv in H.
    + apply Forall_fmap, Forall_forall. intros k _. apply canonical_record_nonempty.
  - intros ->. reflexivity.
Qed.

Lemma join_with_snoc sep parts p :
  join_with sep (parts ++ [p])
  = join_with sep parts ++ (match parts with [] => [] | _ => sep end) ++ p.
Proof.
  induction parts as [|q parts IH]; [done|].
  cbn [app join_with]. destruct parts as [|q' parts]; [done|].
  cbn [app] in *. rewrite IH. by rewrite <- !app_assoc.
Qed.

Lemma sorted_keys_insert_last (cs : ComponentSet) k c :
  cs !! k = None ->
  (forall k', is_Some (cs !! k') -> jsstring_le k' k) ->
  Array_sort (Object_keys (<[k := c]> cs)) = Array_sort (Object_keys cs) ++ [k].
Proof.
  intros Hk Hmax.
  apply (StronglySorted_unique jsstring_le); [apply Array_sort_sorted| |].
  - apply StronglySorted_app_2; [|apply Array_sort_sorted|repeat constructor].
    intros k1 k2 H1 H2. apply list_elem_of_singleton in H2 as ->.
    apply Hmax. by apply sorted_keys_elem.
  - rewrite !Array_sort_perm. unfold Object_keys.
    rewrite map_to_list_insert by done. cbn [fmap list_fmap fst].
    by rewrite Permutation_cons_append.
Qed.

(** X15: adding a component whose name is new and comes after every name
    already present appends its record to the canonical string, with a bar
    in between unless the string was empty, and leaves the rest as it was. *)
Theorem canonical_string_append (cs : ComponentSet) (k : jsstring) (c : Component) :
  cs !! k = None ->
  (forall k', is_Some (cs !! k') -> jsstring_le k' k) ->
  exists canonical,
    componentsToCanonicalString cs = Normal canonical
    /\ componentsToCanonicalString (<[k := c]> cs)
       = Normal (canonical ++ (match canonical with [] => [] | _ => str "|" end)
                           ++ escapeKey k ++ str ":" ++ render_component c).
Proof.
  intros Hk Hmax. eexists. split; [apply componentsToCanonicalString_records|].
  rewrite componentsToCanonicalString_records, sorted_keys_insert_last by done.
  rewrite fmap_app. cbn [fmap list_fmap]. rewrite join_with_snoc.
  assert (canonical_record (<[k:=c]> cs) <$> Array_sort (Object_keys cs)
          = canonical_record cs <$> Array_sort (Object_keys cs)) as ->.
  { apply list_fmap_ext. intros i k' Hk'. unfold canonical_record.
    rewrite lookup_insert_ne; [done|]. intros <-.
    apply list_elem_of_lookup_2, sorted_keys_elem in Hk'. rewrite Hk in Hk'. by destruct Hk'. }
  do 2 f_equal.
  replace (canonical_record (<[k:=c]> cs) k)
    with (escapeKey k ++ str ":" ++ render_component c)
    by (unfold canonical_record; by rewrite lookup_insert_eq).
  f_equal.
  destruct (Array_sort (Object_keys cs)) as [|k0 keys] eqn:E; [done|].
  cbn [fmap list_fmap].
  destruct (join_with (str "|") (canonical_record cs k0 :: (canonical_record cs <$> keys)))
    eqn:Ej; [|done].
  apply join_with_nil_inv in Ej; [done|].
  apply Forall_cons_2; [apply canonical_record_nonempty|].
  apply Forall_fmap, Forall_forall. intros k' _. apply canonical_record_nonempty.
Qed.

Lemma canonical_string_append_witness :
  append_example !! str "fonts" = None
  /\ (forall k', is_Some (append_example !! k') -> jsstring_le k' (str "fonts"))
  /\ componentsToCanonicalString
       (<[str "fonts" := ValueComponent (JArray [JString (str "Arial")]) 9]> append_example)
     = Normal (str "audio:35|fonts:[" ++ [34%N] ++ str "Arial" ++ [34%N] ++ str "]").
Proof.
  assert (append_example !! str "fonts" = None) as H1 by reflexivity.
  assert (forall k', is_Some (append_example !! k') -> jsstring_le k' (str "fonts")) as H2.
  { intros k' [c Hc]. unfold append_example in Hc.
    apply lookup_singleton_Some in Hc as [<- _]. reflexivity. }
  split; [exact H1|]. split; [exact H2|].
  destruct (canonical_string_append append_example (str "fonts")
              (ValueComponent (JArray [JString (str "Arial")]) 9) H1 H2) as (s & Hs & ->).
  assert (s = str "audio:35") as ->
    by (vm_compute in Hs; injection Hs as <-; reflexivity).
  reflexivity.
Defined.

End CanonicalExtras.

(** ** More on the source loader *)

Section LoaderExtras.
Local Open Scope Z_scope.

(** X16: a source that succeeds gives a value component.  With one stage the
    duration is the time the source took; with two stages it is that time
    plus the time the returned function took, and so the same whenever the
    getter is called: the wait between the two stages is not counted. *)
Theorem loadSource_value_outcome (source : Source) (w w2 : World) (v : JSValue) :
  (yields (source (source_calls w)) (FinalResult v)
   \/ exists get, yields (source (source_calls w)) (GetFunction get)
                  /\ yields (get (get_calls w2)) v) ->
  exists d,
    fst (getComponent (fst (loadSource source w)) w2) = Normal (ValueComponent v d)
    /\ (forall t,
          fst (getComponent (fst (loadSource source w))
                 (mkWorld t (source_calls w2) (get_calls w2)))
          = Normal (ValueComponent v d))
    /\ (yields (source (source_calls w)) (FinalResult v) ->
        d = elapsed (source (source_calls w)))
    /\ (forall get, yields (source (source_calls w)) (GetFunction get) ->
        d = elapsed (source (source_calls w)) + elapsed (get (get_calls w2))).
Proof.
  intros [H1|(get & H1 & H2)].
  - exists (elapsed (source (source_calls w))).
    rewrite (loadSource_yields _ _ _ H1). cbn [fst getComponent finalizeSource].
    repeat split; try done.
    intros get Hget. destruct H1 as [H1|H1], Hget as [Hg|Hg]; congruence.
  - exists (elapsed (source (source_calls w)) + elapsed (get (get_calls w2))).
    rewrite (loadSource_yields _ _ _ H1). cbn [fst getComponent].
    split; [by rewrite (finalizeGet_yields _ _ _ _ H2)|]. split; [|split].
    + intros t. by rewrite (finalizeGet_yields get _ (mkWorld t _ _) v H2).
    + intros H. destruct H1 as [H1|H1], H as [H|H]; congruence.
    + intros get' Hget.
      assert (GetFunction get' = GetFunction get) as [= ->]
        by (destruct H1 as [H1|H1], Hget as [Hg|Hg]; congruence).
      done.
Qed.

Lemma loadSource_value_outcome_witness :
  let w := mkWorld 100 0 0 in
  let w2 := mkWorld 5000 1 0 in
  exists d,
    fst (getComponent (fst (loadSource slow_two_stage w)) w2)
    = Normal (ValueComponent (JString (str "landscape")) d)
    /\ d = 52.
Proof.
  intros w w2.
  destruct (loadSource_value_outcome slow_two_stage w w2 (JString (str "landscape")))
    as (d & H1 & _ & _ & H4).
  { right. eexists. split; [right|left]; reflexivity. }
  exists d. split; [exact H1|].
  apply (H4 (fun _ => mkCall (Normal (Plain (JString (str "landscape")))) 40)).
  right. reflexivity.
Defined.

(** X17: whatever a source does in either stage, the promise of
    [loadSource] and the promise of the getter are fulfilled and the
    component has exactly one of [value] and [error]; it is an error exactly
    when the first stage failed or the second stage, being reached, failed. *)
Theorem loadSource_always_settles (source : Source) (w w2 : World) :
  exists p w1 c w3,
    loadSource source w = (Normal p, w1)
    /\ getComponent (Normal p) w2 = (Normal c, w3)
    /\ ((is_Some (value c) /\ error c = None) \/ (value c = None /\ is_Some (error c)))
    /\ (is_Some (error c) <->
        (exists e, fails_with (source (source_calls w)) e)
        \/ (exists get e, yields (source (source_calls w)) (GetFunction get)
                          /\ fails_with (get (get_calls w2)) e)).
Proof.
  destruct (call_cases (source (source_calls w))) as [[e H]|[[v|get] H]].
  - rewrite (loadSource_fails _ _ _ H). do 4 eexists.
    split; [reflexivity|]. split; [reflexivity|]. cbn.
    split; [right; eauto|]. split; [eauto|by eexists].
  - rewrite (loadSource_yields _ _ _ H). do 4 eexists.
    split; [reflexivity|]. split; [reflexivity|]. cbn.
    split; [left; eauto|]. split; [intros [? [=]]|].
    intros [[e He]|(get & e & Hg & _)].
    + by destruct (fails_yields_exclusive _ _ _ He H).
    + destruct H as [H|H], Hg as [Hg|Hg]; congruence.
  - rewrite (loadSource_yields _ _ _ H).
    destruct (call_cases (get (get_calls w2))) as [[e' H']|[v' H']].
    + pose proof (finalizeGet_fails get (elapsed (source (source_calls w))) w2 e' H') as E.
      do 4 eexists. split; [reflexivity|]. split; [exact E|]. cbn.
      split; [right; eauto|]. split; [eauto 6|by eexists].
    + pose proof (finalizeGet_yields get (elapsed (source (source_calls w))) w2 v' H') as E.
      do 4 eexists. split; [reflexivity|]. split; [exact E|]. cbn.
      split; [left; eauto|]. split; [intros [? [=]]|].
      intros [[e He]|(get' & e & Hg & He)].
      * by destruct (fails_yields_exclusive _ _ _ He H).
      * assert (GetFunction get' = GetFunction get) as [= ->]
          by (destruct H as [H|H], Hg as [Hg|Hg]; congruence).
        by destruct (fails_yields_exclusive _ _ _ He H').
Qed.


Lemma transformSource_component_example :
  let w := mkWorld 100 0 0 in
  let w2 := mkWorld 5000 1 0 in
  fst (getComponent (fst (loadSource (transformSource slow_two_stage boxing_transform) w)) w2)
  = Normal (ValueComponent (JArray [JString (str "landscape")]) 55).
Proof. reflexivity. Qed.

End LoaderExtras.

(** ** The scheduler's releases, list membership and the lazy result *)

Section SchedulerExtras.
Context {A B : Type}.
Local Open Scope Z_scope.

Lemma mapWithBreaks_loop_releases clock (callback : A -> nat -> B) (items : list A) interval :
  forall fuel i tick last results releases,
    (releases
     <= snd (mapWithBreaks_loop clock callback items interval fuel i tick last results releases)
     <= releases + fuel)%nat.
Proof.
  induction fuel as [|fuel IH]; intros i tick last results releases;
    cbn [mapWithBreaks_loop]; [cbn; lia|].
  destruct (_ !! _); [|cbn; lia].
  destruct (_ >=? _).
  - specialize (IH (S i) (S tick) (clock tick)
                  (<[i:=Some (callback a i)]> results) (S releases)). lia.
  - specialize (IH (S i) (S tick) last (<[i:=Some (callback a i)]> results) releases). lia.
Qed.

Lemma mapWithBreaks_loop_quiet clock (callback : A -> nat -> B) (items : list A) interval :
  forall fuel i tick last results releases,
    (forall k, clock k < last + interval) ->
    snd (mapWithBreaks_loop clock callback items interval fuel i tick last results releases)
    = releases.
Proof.
  induction fuel as [|fuel IH]; intros i tick last results releases Hq;
    cbn [mapWithBreaks_loop]; [done|].
  destruct (_ !! _); [|done].
  destruct (Z.geb_spec (clock tick) (last + interval)) as [Hge|Hlt].
  - specialize (Hq tick). lia.
  - by apply IH.
Qed.

Lemma mapWithBreaks_loop_eager clock (callback : A -> nat -> B) (items : list A) interval :
  interval <= 0 ->
  (forall j k, (j <= k)%nat -> clock j <= clock k) ->
  forall fuel i tick t0 results releases,
    (i + fuel = length items)%nat -> (t0 <= tick)%nat ->
    snd (mapWithBreaks_loop clock callback items interval fuel i tick (clock t0) results releases)
    = (releases + fuel)%nat.
Proof.
  intros Hint Hmono.
  induction fuel as [|fuel IH]; intros i tick t0 results releases Hi Ht;
    cbn [mapWithBreaks_loop]; [cbn; lia|].
  destruct (_ !! _) eqn:E.
  2:{ apply lookup_ge_None in E. lia. }
  destruct (Z.geb_spec (clock tick) (clock t0 + interval)) as [Hge|Hlt].
  - rewrite (IH (S i) (S tick) tick) by lia. lia.
  - specialize (Hmono t0 tick Ht). lia.
Qed.

(** X20: a pass of [mapWithBreaks] releases the event loop at most once per
    item.  It never releases it when the clock stays within the interval of
    the first reading, and it releases it after every item when the interval
    is zero or negative and the clock does not run backwards. *)
Theorem mapWithBreaks_releases (clock : nat -> Z) (items : list A)
    (callback : A -> nat -> B) (loopReleaseInterval : option Z) :
  let releases := snd (mapWithBreaks clock items callback loopReleaseInterval) in
  (releases <= length items)%nat
  /\ ((forall k, clock k < clock 0%nat + default 16 loopReleaseInterval) -> releases = 0%nat)
  /\ (default 16 loopReleaseInterval <= 0 ->
      (forall j k, (j <= k)%nat -> clock j <= clock k) ->
      releases = length items).
Proof.
  unfold mapWithBreaks. cbv zeta. split; [|split].
  - pose proof (mapWithBreaks_loop_releases clock callback items
                  (default 16 loopReleaseInterval) (length items) 0 1 (clock 0%nat)
                  (replicate (length items) None) 0). lia.
  - intros Hq. by apply mapWithBreaks_loop_quiet.
  - intros Hint Hmono.
    rewrite (mapWithBreaks_loop_eager clock callback items _ Hint Hmono); lia.
Qed.

End SchedulerExtras.

Section UtilityExtras.
Context {A : Type} `{EqDecision A}.

Lemma includes_loop_spec (haystack : list A) needle :
  forall fuel i,
    (i + fuel = length haystack)%nat ->
    includes_loop haystack needle (length haystack) fuel i = true
    <-> needle ∈ drop i haystack.
Proof.
  induction fuel as [|fuel IH]; intros i Hi; cbn [includes_loop].
  - rewrite drop_ge by lia. split; [done|]. by intros ?%elem_of_nil.
  - destruct (Nat.ltb_spec i (length haystack)); [|lia].
    destruct (haystack !! i) as [x|] eqn:E.
    2:{ apply lookup_ge_None in E. lia. }
    rewrite (drop_S _ _ _ E), elem_of_cons.
    destruct (decide (x = needle)) as [->|Hne]; [by split; auto|].
    rewrite IH by lia. split; [auto|]. by intros [->|].
Qed.

Lemma includes_spec (haystack : list A) (needle : A) :
  includes haystack needle = true <-> needle ∈ haystack.
Proof. unfold includes. by rewrite includes_loop_spec by lia. Qed.

Lemma excludes_spec (haystack : list A) (needle : A) :
  excludes haystack needle = true <-> needle ∉ haystack.
Proof.
  unfold excludes. rewrite negb_true_iff, <- includes_spec. by destruct (includes _ _).
Qed.

(** X21: [includes] answers whether the needle is an element of the
    haystack, and [excludes] whether it is not; on the empty haystack
    [includes] is false. *)
Theorem includes_elem_of (haystack : list A) (needle : A) :
  (includes haystack needle = true <-> needle ∈ haystack)
  /\ (excludes haystack needle = true <-> needle ∉ haystack)
  /\ includes [] needle = false.
Proof.
  split; [apply includes_spec|]. split; [apply excludes_spec|done].
Qed.

End UtilityExtras.

Section LazyResultExtras.

(** X22: once the setter of [visitorId] has been used, every later read
    returns the assigned string, whatever it is and whatever is assigned to
    [components] afterwards, and [hashComponents] is not called again. *)
Theorem visitorId_setter_overrides (this : GetResult) (visitorId : jsstring)
    (ops : list Access) :
  Forall (eq (Normal visitorId)) (fst (run_accesses ops (set_visitorId visitorId this)))
  /\ hash_calls (snd (run_accesses ops (set_visitorId visitorId this))) = hash_calls this
  /\ visitorIdCache (snd (run_accesses ops (set_visitorId visitorId this))) = Some visitorId.
Proof. exact (run_accesses_cached ops (set_visitorId visitorId this) visitorId eq_refl). Qed.

Lemma run_accesses_confidence ops : forall this,
  result_confidence (snd (run_accesses ops this)) = result_confidence this.
Proof.
  induction ops as [|[|cs] ops IH]; intros this; [done| |].
  - cbn [run_accesses]. destruct (get_visitorId this) as [r this'] eqn:E.
    specialize (IH this'). destruct (run_accesses ops this'). cbn [snd] in *.
    rewrite IH. unfold get_visitorId in E.
    destruct (visitorIdCache this); [by injection E as _ <-|].
    destruct (hashComponents _); by injection E as _ <-.
  - cbn [run_accesses]. by rewrite IH.
Qed.

(** X23: the identifier is the hash of what the [components] property holds
    at the first read, not of what the result was built from: after an
    assignment to [components] made before any read, every read returns the
    hash of the assigned set, while the confidence stays the one computed
    from the original set. *)
Theorem visitorId_follows_components (env : Browser) (cs cs' : ComponentSet)
    (result : GetResult) (ops : list Access) :
  makeLazyGetResult env cs = Normal result ->
  Forall (eq (hashComponents cs'))
    (fst (run_accesses (AssignComponents cs' :: ReadVisitorId :: ops) result))
  /\ Normal (result_confidence
               (snd (run_accesses (AssignComponents cs' :: ReadVisitorId :: ops) result)))
     = getConfidence env cs.
Proof.
  unfold makeLazyGetResult. destruct (getConfidence env cs) as [conf|e] eqn:Ec; [|done].
  intros [= <-]. cbn [run_accesses set_components visitorIdCache result_confidence
                        result_version hash_calls].
  unfold get_visitorId, set_components.
  cbn [visitorIdCache result_components result_confidence result_version hash_calls].
  destruct (hashComponents_total cs') as (id & -> & _).
  set (this1 := mkGetResult _ _ _ _ _).
  destruct (run_accesses_cached ops this1 id eq_refl) as (H1 & _ & _).
  pose proof (run_accesses_confidence ops this1) as Hconf.
  destruct (run_accesses ops this1) as [rs this']. cbn [fst snd] in *.
  split; [by constructor|]. by rewrite Hconf.
Qed.

Lemma visitorId_follows_components_witness :
  makeLazyGetResult android_browser ∅
  = Normal (mkGetResult None (mkConfidence 0.4%Q) ∅ version 0)
  /\ Forall (eq (hashComponents windows_components))
       (fst (run_accesses [AssignComponents windows_components; ReadVisitorId; ReadVisitorId]
               (mkGetResult None (mkConfidence 0.4%Q) ∅ version 0))).
Proof.
  split; [reflexivity|].
  exact (proj1 (visitorId_follows_components android_browser ∅ windows_components
                  (mkGetResult None (mkConfidence 0.4%Q) ∅ version 0)
                  [ReadVisitorId] eq_refl)).
Defined.

End LazyResultExtras.

(** ** Loading several sources *)

Section StatefulSchedulerLemmas.
Context {St A B : Type}.
Local Open Scope Z_scope.



End StatefulSchedulerLemmas.

Section SynchronousSources.
Local Open Scope Z_scope.






End SynchronousSources.

Section LoadSourcesTheorems.
Local Open Scope Z_scope.
Variable release_time : nat -> Z.



Lemma sources_get_elem_of (sources : Sources) key source :
  sources_get sources key = Some source -> (key, source) ∈ sources.
Proof.
  induction sources as [|[k s] sources IH]; [done|]. cbn [sources_get].
  destruct (decide (k = key)) as [->|Hne].
  - intros [= ->]. left.
  - intros H. right. by apply IH.
Qed.

Lemma sources_get_None (sources : Sources) key :
  key ∉ sources.*1 -> sources_get sources key = None.
Proof.
  intros Hk. destruct (sources_get sources key) as [source|] eqn:E; [|done].
  exfalso. apply Hk. apply list_elem_of_fmap. exists (key, source).
  split; [done|]. by apply sources_get_elem_of.
Qed.














End LoadSourcesTheorems.

